(** * webp-to-mp4: the frame coalescing worker (conversion-worker.js)

    A shallow embedding of [convert], the function that rebuilds the full
    frames of an animated WebP on a persistent RGBA canvas, writes one
    numbered snapshot per frame and derives the frame rate handed to the
    encoder.

    JavaScript numbers are IEEE 754 binary64 values: they are modelled by
    Rocq's primitive floats.  Indices, sizes and bytes are integers in the
    program and are modelled in [Z]; a byte buffer ([Buffer], a
    [Uint8Array]) is a list of bytes that drops stores outside its range
    and yields [undefined] for reads outside its range. *)

From stdpp Require Import base numbers list list_numbers strings pretty.
From Stdlib Require Import ZArith Lia Ascii.
From Stdlib Require Import Floats.PrimFloat Floats.FloatOps Floats.SpecFloat.
From Stdlib Require Import Numbers.Cyclic.Int63.Uint63.

Local Open Scope Z_scope.

(** ** JavaScript numbers *)

Module JS.

Abbreviation number := float.

(** The number denoted by an integer (a literal, a byte read from a
    buffer, a delay): the binary64 value nearest to it.  Below 2^63 in
    magnitude the conversion of the machine integer does the rounding;
    above, the integer is rounded as a binary64 mantissa and exponent. *)
Definition of_Z (z : Z) : number :=
  if Z.abs z <? 9223372036854775808 then
    if z <? 0 then PrimFloat.opp (PrimFloat.of_uint63 (Uint63.of_Z (- z)))
    else PrimFloat.of_uint63 (Uint63.of_Z z)
  else SF2Prim (binary_normalize FloatOps.prec FloatOps.emax z 0 false).

(** A value read from a buffer or a metadata field: [None] is
    [undefined]. *)
Abbreviation value := (option Z).

(** ToNumber: [undefined] becomes NaN. *)
Definition to_number (v : value) : number :=
  match v with
  | Some z => of_Z z
  | None => PrimFloat.nan
  end.

(** [a || d] on a numeric field: [undefined] and [0] select [d]. *)
Definition or_default (v : value) (d : Z) : Z :=
  match v with
  | Some z => if z =? 0 then d else z
  | None => d
  end.

(** [v === n] for a number literal [n]. *)
Definition strict_eq (v : value) (n : Z) : bool :=
  match v with
  | Some z => z =? n
  | None => false
  end.

(** [a > b]; false as soon as one side is NaN. *)
Definition gt (a b : number) : bool := PrimFloat.ltb b a.

(** The integer part of a finite number, truncated toward zero. *)
Definition truncate (x : number) : Z :=
  match Prim2SF x with
  | S754_finite s m e =>
      let a := match e with
               | Zneg p => Z.shiftr (Zpos m) (Zpos p)
               | _ => Z.shiftl (Zpos m) e
               end in
      if s then - a else a
  | _ => 0
  end.

(** ToInt32, the conversion applied by [x | 0]: NaN and the infinities
    give 0, everything else is truncated and wrapped to 32 bits. *)
Definition to_int32 (x : number) : Z :=
  let w := truncate x `mod` 2 ^ 32 in
  if 2 ^ 31 <=? w then w - 2 ^ 32 else w.

(** ToUint8, the conversion applied by a store into a [Uint8Array]. *)
Definition to_uint8 (v : value) : Z :=
  match v with
  | Some z => z `mod` 256
  | None => 0
  end.

(** [Math.round]: the closest integer, ties toward +infinity, that is
    the floor of [x + 1/2] taken exactly; NaN, the infinities and the
    numbers that are integers already are returned unchanged. *)
Definition math_round (x : number) : number :=
  match Prim2SF x with
  | S754_finite s m (Zneg p) =>
      let v := if s then Zneg m else Zpos m in
      let r := Z.shiftr (2 * v + Z.shiftl 1 (Zpos p)) (Zpos p + 1) in
      if (r =? 0) && s then PrimFloat.neg_zero else of_Z r
  | _ => x
  end.

End JS.

(** ** Byte buffers *)

Abbreviation buf := (list Z).

(** [b[i]] *)
Definition buf_get (b : buf) (i : Z) : JS.value :=
  if 0 <=? i then b !! Z.to_nat i else None.

(** [b[i] = v] *)
Definition buf_set (b : buf) (i : Z) (v : JS.value) : buf :=
  if 0 <=? i then <[Z.to_nat i := JS.to_uint8 v]> b else b.

(** [Buffer.alloc(n)] *)
Definition buf_alloc (n : Z) : buf := replicate (Z.to_nat n) 0.

(** [for (let i = 0; i < n; i++) body] over a state [A]. *)
Definition for_loop {A} (n : Z) (body : Z → A → A) (init : A) : A :=
  foldl (λ acc i, body i acc) init (seqZ 0 n).

(** ** The decoded image *)

(** The metadata of one frame, [img.anim.frames[i]].  The offsets and the
    delay are numbers or [undefined]; [blend] and [dispose] are the
    booleans the program tests with [=== false] and [=== true]. *)
Module Fmeta.
Record t := Build {
  x : JS.value;
  y : JS.value;
  width : Z;
  height : Z;
  blend : bool;
  dispose : bool;
  delay : JS.value
}.
End Fmeta.

(** A frame: its metadata and the RGBA bytes [img.getFrameData(i)]. *)
Record frame := Frame {
  fmeta : Fmeta.t;
  rgba : buf
}.

(** The loaded image.  [bgColor] is [img.anim.bgColor] ([None] when the
    container gives none); [frames] is [img.frames], the accessor of
    [img.anim.frames], each frame with the pixels [getFrameData] decodes
    for it.  The image is taken as the library loads it: the animation
    record is there whenever there are frames. *)
Module Img.
Record t := Build {
  hasAnim : bool;
  width : Z;
  height : Z;
  bgColor : option (list Z);
  frames : list frame
}.
End Img.

(** ** Compositing one pixel *)

(** Body of the inner loop when [fmeta.blend === false]. *)
Definition copy_pixel (rgba canvas : buf) (si di : Z) : buf :=
  let canvas := buf_set canvas (di + 0) (buf_get rgba (si + 0)) in
  let canvas := buf_set canvas (di + 1) (buf_get rgba (si + 1)) in
  let canvas := buf_set canvas (di + 2) (buf_get rgba (si + 2)) in
  let canvas := buf_set canvas (di + 3) (buf_get rgba (si + 3)) in
  canvas.

(** [sa + da * (255 - sa) / 255] *)
Definition out_alpha (sa da : JS.value) : JS.number :=
  (JS.to_number sa
   + JS.to_number da * (JS.of_Z 255 - JS.to_number sa) / JS.of_Z 255)%float.

(** [(sc * sa + dc * da * (255 - sa) / 255) / outA] *)
Definition out_channel (sc sa dc da : JS.value) (outA : JS.number) : JS.number :=
  ((JS.to_number sc * JS.to_number sa
    + JS.to_number dc * JS.to_number da * (JS.of_Z 255 - JS.to_number sa)
      / JS.of_Z 255) / outA)%float.

(** Body of the inner loop otherwise. *)
Definition blend_pixel (rgba canvas : buf) (si di : Z) : buf :=
  let sa := buf_get rgba (si + 3) in
  if JS.strict_eq sa 255 then
    let canvas := buf_set canvas (di + 0) (buf_get rgba (si + 0)) in
    let canvas := buf_set canvas (di + 1) (buf_get rgba (si + 1)) in
    let canvas := buf_set canvas (di + 2) (buf_get rgba (si + 2)) in
    let canvas := buf_set canvas (di + 3) (Some 255) in
    canvas
  else if JS.strict_eq sa 0 then
    canvas
  else
    let da := buf_get canvas (di + 3) in
    let outA := out_alpha sa da in
    let sr := buf_get rgba (si + 0) in
    let sg := buf_get rgba (si + 1) in
    let sb := buf_get rgba (si + 2) in
    let dr := buf_get canvas (di + 0) in
    let dg := buf_get canvas (di + 1) in
    let db := buf_get canvas (di + 2) in
    if JS.gt outA (JS.of_Z 0) then
      let canvas :=
        buf_set canvas (di + 0) (Some (JS.to_int32 (out_channel sr sa dr da outA))) in
      let canvas :=
        buf_set canvas (di + 1) (Some (JS.to_int32 (out_channel sg sa dg da outA))) in
      let canvas :=
        buf_set canvas (di + 2) (Some (JS.to_int32 (out_channel sb sa db da outA))) in
      let canvas := buf_set canvas (di + 3) (Some (JS.to_int32 outA)) in
      canvas
    else canvas.

(** ** Compositing one frame *)

(** The two nested loops over the patch, with the inner body [pixel]. *)
Definition patch_loop (pixel : buf → buf → Z → Z → buf)
    (width x0 y0 fw fh : Z) (rgba canvas : buf) : buf :=
  for_loop fh (λ y canvas,
    for_loop fw (λ x canvas,
      let si := (y * fw + x) * 4 in
      let di := ((y0 + y) * width + (x0 + x)) * 4 in
      pixel rgba canvas si di) canvas) canvas.

Definition composite (width x0 y0 fw fh : Z) (blend : bool)
    (rgba canvas : buf) : buf :=
  if negb blend then patch_loop copy_pixel width x0 y0 fw fh rgba canvas
  else patch_loop blend_pixel width x0 y0 fw fh rgba canvas.

(** The loops run when [fmeta.dispose === true]. *)
Definition clear_region (width x0 y0 fw fh : Z) (bg : list Z) (canvas : buf) : buf :=
  for_loop fh (λ y canvas,
    let rowOff := (y0 + y) * width * 4 + x0 * 4 in
    for_loop fw (λ x canvas,
      let p := rowOff + x * 4 in
      let canvas := buf_set canvas (p + 0) (bg !! 0%nat) in
      let canvas := buf_set canvas (p + 1) (bg !! 1%nat) in
      let canvas := buf_set canvas (p + 2) (bg !! 2%nat) in
      let canvas := buf_set canvas (p + 3) (bg !! 3%nat) in
      canvas) canvas) canvas.

(** ** Snapshot names *)

(** [n] copies of the fill character ['0']. *)
Fixpoint zeros (n : nat) : string :=
  match n with
  | O => EmptyString
  | S n' => String "0"%char (zeros n')
  end.

(** [s.padStart(n, '0')] *)
Definition padStart0 (n : nat) (s : string) : string :=
  zeros (n - String.length s) +:+ s.

(** [i.toString().padStart(5, '0')] *)
Definition frameIndex (i : Z) : string := padStart0 5 (pretty i).

(** The file name under [tempDir]: [`frame_${frameIndex}.png`]. *)
Definition frame_name (i : Z) : string := "frame_" +:+ frameIndex i +:+ ".png".

(** ** The frame loop *)

Definition x0_of (fm : Fmeta.t) : Z := JS.or_default (Fmeta.x fm) 0 * 2.
Definition y0_of (fm : Fmeta.t) : Z := JS.or_default (Fmeta.y fm) 0 * 2.

(** The canvas a frame's snapshot is taken from. *)
Definition draw_frame (width : Z) (f : frame) (canvas : buf) : buf :=
  let fm := fmeta f in
  composite width (x0_of fm) (y0_of fm) (Fmeta.width fm) (Fmeta.height fm)
    (Fmeta.blend fm) (rgba f) canvas.

(** The disposal that follows the snapshot. *)
Definition dispose_frame (width : Z) (bg : list Z) (f : frame) (canvas : buf) : buf :=
  let fm := fmeta f in
  if Fmeta.dispose fm then
    clear_region width (x0_of fm) (y0_of fm) (Fmeta.width fm) (Fmeta.height fm)
      bg canvas
  else canvas.

(** One file written into [tempDir]. *)
Inductive artifact :=
  | InputCopy
  | Png (data : buf).

(** One turn of the loop over the frames: composite, snapshot
    ([Buffer.from(canvas)] is a copy), dispose.  Returns the file written
    and the canvas left for the next frame. *)
Definition frame_step (width : Z) (bg : list Z) (i : Z) (f : frame)
    (canvas : buf) : (string * artifact) * buf :=
  let canvas := draw_frame width f canvas in
  let png := Png canvas in
  let outPath := frame_name i in
  let canvas := dispose_frame width bg f canvas in
  ((outPath, png), canvas).

Fixpoint frame_loop (width : Z) (bg : list Z) (i : Z) (fs : list frame)
    (canvas : buf) : list (string * artifact) :=
  match fs with
  | [] => []
  | f :: fs' =>
      let '(file, canvas) := frame_step width bg i f canvas in
      file :: frame_loop width bg (i + 1) fs' canvas
  end.

(** The background: [img.anim.bgColor], opaque white when absent. *)
Definition background (img : Img.t) : list Z :=
  match Img.bgColor img with
  | Some c => c
  | None => [255; 255; 255; 255]
  end.

(** The canvas before the first frame. *)
Definition initial_canvas (width height : Z) (bg : list Z) : buf :=
  let canvas := buf_alloc (width * height * 4) in
  for_loop (width * height) (λ i canvas,
    let canvas := buf_set canvas (i * 4 + 0) (bg !! 0%nat) in
    let canvas := buf_set canvas (i * 4 + 1) (bg !! 1%nat) in
    let canvas := buf_set canvas (i * 4 + 2) (bg !! 2%nat) in
    let canvas := buf_set canvas (i * 4 + 3) (bg !! 3%nat) in
    canvas) canvas.

(** The files [convert] leaves in [tempDir], in the order written. *)
Definition convert_frames (img : Img.t) : list (string * artifact) :=
  if negb (Img.hasAnim img) then [("frame_00000.png"%string, InputCopy)]
  else
    let width := Img.width img in
    let height := Img.height img in
    let bg := background img in
    let canvas := initial_canvas width height bg in
    frame_loop width bg 0 (Img.frames img) canvas.

(** The frame rate given to the encoder ([inputFPS]); [frames[0].delay]
    is [undefined] when the field is missing. *)
Definition convert_fps (img : Img.t) : JS.number :=
  let fps := JS.of_Z 10 in
  if Img.hasAnim img && (0 <? Z.of_nat (length (Img.frames img))) then
    let avgDelay :=
      JS.or_default (Img.frames img !! 0%nat ≫= λ f, Fmeta.delay (fmeta f)) 100 in
    JS.math_round (JS.of_Z 1000 / JS.of_Z avgDelay)%float
  else fps.

Definition convert (img : Img.t) : list (string * artifact) * JS.number :=
  (convert_frames img, convert_fps img).

(** * Vocabulary of the statements *)

(** ** Pixels *)

Abbreviation quad := (JS.value * JS.value * JS.value * JS.value)%type.

(** The four channels read at byte index [i]. *)
Definition peek4 (b : buf) (i : Z) : quad :=
  (buf_get b (i + 0), buf_get b (i + 1), buf_get b (i + 2), buf_get b (i + 3)).

(** Four stores at [di], in the order of the program. *)
Definition store4 (c : buf) (di : Z) (q : quad) : buf :=
  let '(v0, v1, v2, v3) := q in
  buf_set (buf_set (buf_set (buf_set c (di + 0) v0) (di + 1) v1) (di + 2) v2)
    (di + 3) v3.

(** The bytes a buffer holds after the four values were stored. *)
Definition stored (q : quad) : quad :=
  let '(v0, v1, v2, v3) := q in
  (Some (JS.to_uint8 v0), Some (JS.to_uint8 v1), Some (JS.to_uint8 v2),
   Some (JS.to_uint8 v3)).

(** A pixel update: four stores at [di] computed from the four bytes
    found there, or no store at all. *)
Definition update4 (F : quad → option quad) (di : Z) (c : buf) : buf :=
  match F (peek4 c di) with
  | Some q => store4 c di q
  | None => c
  end.

(** What [blend_pixel] stores for a source pixel [src] over the canvas
    pixel [dst] ([None]: nothing is stored). *)
Definition blended (src dst : quad) : option quad :=
  let '(sr, sg, sb, sa) := src in
  let '(dr, dg, db, da) := dst in
  if JS.strict_eq sa 255 then Some (sr, sg, sb, Some 255)
  else if JS.strict_eq sa 0 then None
  else
    let outA := out_alpha sa da in
    if JS.gt outA (JS.of_Z 0) then
      Some (Some (JS.to_int32 (out_channel sr sa dr da outA)),
            Some (JS.to_int32 (out_channel sg sa dg da outA)),
            Some (JS.to_int32 (out_channel sb sa db da outA)),
            Some (JS.to_int32 outA))
    else None.

(** The canvas pixel left by drawing [src] over [dst]. *)
Definition drawn (blend : bool) (src dst : quad) : quad :=
  match (if blend then blended src dst else Some src) with
  | Some q => stored q
  | None => dst
  end.

(** The inner body of [clear_region], on the index [di] of the pixel. *)
Definition fill_pixel (bg : list Z) (rgba canvas : buf) (si di : Z) : buf :=
  store4 canvas di (bg !! 0%nat, bg !! 1%nat, bg !! 2%nat, bg !! 3%nat).

(** ** Geometry *)

(** Byte index of the canvas pixel that patch pixel [(x, y)] targets. *)
Definition target (width x0 y0 x y : Z) : Z := ((y0 + y) * width + (x0 + x)) * 4.

(** Byte index of patch pixel [(x, y)] in the patch buffer. *)
Definition source (fw x y : Z) : Z := (y * fw + x) * 4.

(** Byte index of canvas pixel [(X, Y)]. *)
Definition pixel_index (width X Y : Z) : Z := (Y * width + X) * 4.

(** The pixel of the canvas at column [X], row [Y]. *)
Definition canvas_px (width : Z) (c : buf) (X Y : Z) : quad :=
  peek4 c (pixel_index width X Y).

(** The pixel of a patch at column [x], row [y]. *)
Definition patch_px (f : frame) (x y : Z) : quad :=
  peek4 (rgba f) (source (Fmeta.width (fmeta f)) x y).

(** The four bytes of the pixel at [di]. *)
Definition px_range (di j : Z) : Prop := di ≤ j < di + 4.

(** The canvas is a [width] by [height] RGBA buffer. *)
Definition canvas_of (width height : Z) (c : buf) : Prop :=
  0 ≤ width ∧ 0 ≤ height ∧ Z.of_nat (length c) = width * height * 4.

(** The rectangle [x0, x0+fw) x [y0, y0+fh) lies on the canvas. *)
Definition on_canvas (width height x0 y0 fw fh : Z) : Prop :=
  0 ≤ x0 ∧ 0 ≤ y0 ∧ x0 + fw ≤ width ∧ y0 + fh ≤ height.

(** The patch of frame [f] lies on the canvas. *)
Definition frame_on_canvas (width height : Z) (f : frame) : Prop :=
  on_canvas width height (x0_of (fmeta f)) (y0_of (fmeta f))
    (Fmeta.width (fmeta f)) (Fmeta.height (fmeta f)).

(** Canvas pixel [(X, Y)] belongs to the patch region of [f]. *)
Definition in_region (f : frame) (X Y : Z) : Prop :=
  x0_of (fmeta f) ≤ X < x0_of (fmeta f) + Fmeta.width (fmeta f) ∧
  y0_of (fmeta f) ≤ Y < y0_of (fmeta f) + Fmeta.height (fmeta f).

(** Every element is a byte. *)
Definition bytes (b : list Z) : Prop := Forall (λ v, 0 ≤ v < 256) b.

(** The patch buffer holds [fw * fh] RGBA pixels. *)
Definition patch_ok (f : frame) : Prop :=
  bytes (rgba f) ∧
  Z.of_nat (length (rgba f)) = Fmeta.width (fmeta f) * Fmeta.height (fmeta f) * 4.

(** The same frame with its blend flag replaced. *)
Definition set_blend (b : bool) (f : frame) : frame :=
  let fm := fmeta f in
  Frame (Fmeta.Build (Fmeta.x fm) (Fmeta.y fm) (Fmeta.width fm) (Fmeta.height fm)
           b (Fmeta.dispose fm) (Fmeta.delay fm))
        (rgba f).

(** The background as the four values stored by [clear_region]. *)
Definition bg_quad (bg : list Z) : quad :=
  (bg !! 0%nat, bg !! 1%nat, bg !! 2%nat, bg !! 3%nat).

(** ** Loops over disjoint parts of a buffer *)

(** [f] writes inside [T] only, and what it leaves in [T] depends on
    what it found in [T] only. *)
Definition local_on (T : Z → Prop) (f : buf → buf) : Prop :=
  (∀ c j, ¬ T j → buf_get (f c) j = buf_get c j) ∧
  (∀ c c', (∀ j, T j → buf_get c j = buf_get c' j) →
           ∀ j, T j → buf_get (f c) j = buf_get (f c') j).

(** A pixel body fit for [patch_loop]: at every target it is an
    [update4]. *)
Definition pixel_body (pixel : buf → buf → Z → Z → buf) : Prop :=
  ∀ rgba si di, ∃ F, ∀ c, pixel rgba c si di = update4 F di c.

(** One turn of the outer loop of [patch_loop]. *)
Definition patch_row (pixel : buf → buf → Z → Z → buf)
    (width x0 y0 fw : Z) (rgba : buf) (y : Z) (c : buf) : buf :=
  for_loop fw (λ x canvas,
    pixel rgba canvas (source fw x y) (target width x0 y0 x y)) c.

(** The bytes row [y] of the patch targets. *)
Definition in_row (width x0 y0 fw y j : Z) : Prop :=
  ∃ x, x ∈ seqZ 0 fw ∧ px_range (target width x0 y0 x y) j.

(** ** The frame loop as a fold *)

(** Composite then dispose: the canvas one frame leaves to the next. *)
Definition after_frame (width : Z) (bg : list Z) (canvas : buf) (f : frame) : buf :=
  dispose_frame width bg f (draw_frame width f canvas).

(** The canvas frame [i] starts from: frames [0 .. i-1] applied in
    order, each followed by its disposal. *)
Definition canvas_before (width : Z) (bg : list Z) (fs : list frame)
    (canvas : buf) (i : nat) : buf :=
  foldl (after_frame width bg) canvas (take i fs).

(** ** Exhaustive checks *)

(** [f] holds at the [n] integers from [d] on. *)
Fixpoint forall_range (f : Z → bool) (n : nat) (d : Z) : bool :=
  match n with
  | O => true
  | S n' => f d && forall_range f n' (d + 1)
  end.

(** ** The blending formula in integer arithmetic *)

(** [outA = sa + da * (255 - sa) / 255], every division truncating. *)
Definition int_out_alpha (sa da : Z) : Z := sa + (da * (255 - sa)) ÷ 255.

(** [outC = (sc * sa + dc * da * (255 - sa) / 255) / outA], every
    division truncating. *)
Definition int_out_channel (sc sa dc da : Z) : Z :=
  (sc * sa + (dc * da * (255 - sa)) ÷ 255) ÷ int_out_alpha sa da.

(** The check run over every semi-transparent source alpha and every
    destination alpha. *)
Definition alpha_ok (sa da : Z) : bool :=
  let outA := out_alpha (Some sa) (Some da) in
  JS.gt outA (JS.of_Z 0)
  && PrimFloat.leb (JS.of_Z sa) outA
  && (JS.truncate outA =? int_out_alpha sa da).

(** ** The frame rate in integer arithmetic *)

(** The delay the rate is derived from. *)
Definition effective_delay (d : JS.value) : Z :=
  match d with
  | Some z => if decide (z = 0) then 100 else z
  | None => 100
  end.

(** The integer nearest to [1000 / d], ties upward. *)
Definition nearest_rate (d : Z) : Z := (2000 + d) `div` (2 * d).

Definition rate_ok (d : Z) : bool :=
  JS.truncate (JS.math_round (JS.of_Z 1000 / JS.of_Z d)%float) =? nearest_rate d.

(** ** Decimal digits *)

(** [n] decimal digits of [x], least significant last, in front of [s]. *)
Fixpoint digits_acc (n : nat) (x : N) (s : string) : string :=
  match n with
  | O => s
  | S n' => digits_acc n' (x `div` 10)%N (String (pretty_N_char (x `mod` 10)%N) s)
  end.

(** The five-digit, zero-padded decimal numeral of [i]. *)
Definition five_digits (i : Z) : string := digits_acc 5 (Z.to_N i) EmptyString.

(** ** Sample inputs *)

(** [n] copies of the pixel [c]. *)
Definition solid (c : list Z) (n : nat) : buf := concat (replicate n c).

(** A 4x4 image: a red full-canvas frame, then two 2x2 patches at stored
    offset (1,1): an opaque blue one that is disposed and a
    half-transparent green one. *)
Definition frame_red : frame :=
  Frame (Fmeta.Build (Some 0) (Some 0) 4 4 false false (Some 40))
        (solid [255; 0; 0; 255] 16).
Definition frame_blue : frame :=
  Frame (Fmeta.Build (Some 1) (Some 1) 2 2 true true (Some 100))
        (solid [0; 0; 255; 255] 4).
Definition frame_green : frame :=
  Frame (Fmeta.Build (Some 1) (Some 1) 2 2 true false (Some 100))
        (solid [0; 255; 0; 128] 4).
Definition frame_clear : frame :=
  Frame (Fmeta.Build (Some 1) (Some 1) 2 2 true false None)
        (solid [9; 9; 9; 0] 4).
Definition sample_img : Img.t :=
  Img.Build true 4 4 None [frame_red; frame_blue; frame_green].
Definition white : list Z := [255; 255; 255; 255].
Definition sample_canvas : buf := initial_canvas 4 4 white.

(** A 1x1 patch stored at offset (1,0) of a 2x2 canvas: its true column
    is 2, one past the right edge. *)
Definition frame_off_edge : frame :=
  Frame (Fmeta.Build (Some 1) (Some 0) 1 1 false false (Some 100)) [1; 2; 3; 4].
Definition small_canvas : buf := initial_canvas 2 2 white.

(** An animation of 100001 empty frames on a 1x1 canvas. *)
Definition frame_empty : frame :=
  Frame (Fmeta.Build (Some 0) (Some 0) 0 0 true false (Some 100)) [].
Definition long_img : Img.t :=
  Img.Build true 1 1 None (replicate (Z.to_nat 100001) frame_empty).

(** * The server's helpers (server.js) *)

(** [s.replace(/c/g, r)] for one character [c]: every occurrence of [c],
    from left to right, becomes [r]. *)
Fixpoint replace_all (c : ascii) (r s : string) : string :=
  match s with
  | EmptyString => EmptyString
  | String a s' =>
      if Ascii.eqb a c then r +:+ replace_all c r s'
      else String a (replace_all c r s')
  end.

(** [sanitizeErrorMessage(message)]; [None] is a missing message, and the
    empty string is falsy like it. *)
Definition sanitizeErrorMessage (message : option string) : string :=
  match message with
  | None => "An error occurred"
  | Some s =>
      if String.eqb s EmptyString then "An error occurred"
      else
        let s := replace_all "&" "&amp;" s in
        let s := replace_all "<" "&lt;" s in
        let s := replace_all ">" "&gt;" s in
        let s := replace_all "034" "&quot;" s in
        let s := replace_all "'" "&#x27;" s in
        let s := replace_all "/" "&#x2F;" s in
        s
  end.

(** [isPathSafe(filePath, allowedDir)].  [path.resolve], [fs.realpathSync]
    ([None] when it throws) and [path.sep] belong to the platform and are
    taken as given; a missing or empty [filePath] is falsy. *)
Definition isPathSafe (resolve : string → string)
    (realpathSync : string → option string) (sep : string)
    (filePath : option string) (allowedDir : string) : bool :=
  match filePath with
  | None => false
  | Some filePath =>
      if String.eqb filePath EmptyString then false
      else
        match realpathSync (resolve filePath) with
        | None => false
        | Some resolved =>
            match realpathSync (resolve allowedDir) with
            | None => false
            | Some allowedPath =>
                String.eqb resolved allowedPath
                || String.prefix (allowedPath +:+ sep) resolved
            end
        end
  end.

(** ** Vocabulary for the helpers *)

(** The entity one character becomes, or the character itself. *)
Definition escape_char (a : ascii) : string :=
  if Ascii.eqb a "&" then "&amp;"
  else if Ascii.eqb a "<" then "&lt;"
  else if Ascii.eqb a ">" then "&gt;"
  else if Ascii.eqb a "034" then "&quot;"
  else if Ascii.eqb a "'" then "&#x27;"
  else if Ascii.eqb a "/" then "&#x2F;"
  else String a EmptyString.

(** One pass over the string, each character escaped on its own. *)
Fixpoint escape (s : string) : string :=
  match s with
  | EmptyString => EmptyString
  | String a s' => escape_char a +:+ escape s'
  end.

(** Reads one escaped character back from the front of a text. *)
Definition unescape_head (s : string) : option (ascii * string) :=
  match s with
  | String "&" (String "a" (String "m" (String "p" (String ";" t)))) =>
      Some ("&"%char, t)
  | String "&" (String "l" (String "t" (String ";" t))) => Some ("<"%char, t)
  | String "&" (String "g" (String "t" (String ";" t))) => Some (">"%char, t)
  | String "&" (String "q" (String "u" (String "o" (String "t" (String ";" t))))) =>
      Some ("034"%char, t)
  | String "&" (String "#" (String "x" (String "2" (String "7" (String ";" t))))) =>
      Some ("'"%char, t)
  | String "&" (String "#" (String "x" (String "2" (String "F" (String ";" t))))) =>
      Some ("/"%char, t)
  | String a t => Some (a, t)
  | EmptyString => None
  end.

(** The character [a] occurs in [s]. *)
Fixpoint has_char (a : ascii) (s : string) : bool :=
  match s with
  | EmptyString => false
  | String b s' => Ascii.eqb b a || has_char a s'
  end.

(** The characters the sanitizer replaces. *)
Definition is_special (a : ascii) : bool :=
  Ascii.eqb a "&" || Ascii.eqb a "<" || Ascii.eqb a ">" || Ascii.eqb a "034"
  || Ascii.eqb a "'" || Ascii.eqb a "/".

(** A platform for the samples: paths resolve to themselves and every
    path exists. *)
Definition plain_resolve (p : string) : string := p.
Definition plain_realpath (p : string) : option string := Some p.

(** ** Cleanup (cleanupWithRetry, cleanup)

    The three things a conversion leaves behind, in the order the cleanup
    visits them. *)
Inductive stage := InputStage | TempStage | OutputStage.

(** What [fs.unlinkSync] and [fs.rmSync] can do: return, throw an error
    whose code is EBUSY, throw another error. *)
Inductive removal := Removed | Busy | Refused.

(** The file system as the cleanup meets it.  It may change between any
    two stages, so every answer depends on the stage and on the number of
    attempts left in the pass that asks. *)
Module Fs.
Record t := Build {
  resolve : string → string;
  sep : string;
  realpathSync : nat → stage → string → option string;
  existsSync : nat → stage → string → bool;
  remove : nat → stage → string → removal
}.
End Fs.

(** The lines the cleanup logs: a path the check refused, a deletion done,
    a retry scheduled with the attempts left, a deletion given up. *)
Inductive event :=
  | Rejected (st : stage) (p : string)
  | Deleted (st : stage) (p : string)
  | Retrying (st : stage) (p : string) (attempts : nat)
  | GaveUp (st : stage) (p : string).

(** One of the three blocks of [cleanupWithRetry]: the lines it logs, and
    whether it left the function to retry later. *)
Definition clean_one (P : Fs.t) (retries : nat) (st : stage) (root : string)
    (path : option string) : list event * bool :=
  match path with
  | None => ([], false)
  | Some p =>
      if String.eqb p EmptyString then ([], false)
      else if negb (isPathSafe (Fs.resolve P) (Fs.realpathSync P retries st)
                      (Fs.sep P) (Some p) root)
      then ([Rejected st p], false)
      else if Fs.existsSync P retries st p then
        match Fs.remove P retries st p with
        | Removed => ([Deleted st p], false)
        | Busy =>
            if (0 <? retries)%nat then ([Retrying st p retries], true)
            else ([GaveUp st p], false)
        | Refused => ([GaveUp st p], false)
        end
      else ([], false)
  end.

(** [cleanupWithRetry]: the log of this pass and of the passes it
    schedules. *)
Fixpoint cleanupWithRetry (P : Fs.t) (uploadRoot : string)
    (inputPath tempDir outputPath : option string) (retries : nat) : list event :=
  let later :=
    match retries with
    | O => []
    | S r => cleanupWithRetry P uploadRoot inputPath tempDir outputPath r
    end in
  let '(e1, again) := clean_one P retries InputStage uploadRoot inputPath in
  if again then e1 ++ later else
  let '(e2, again) := clean_one P retries TempStage "uploads" tempDir in
  if again then e1 ++ e2 ++ later else
  let '(e3, again) := clean_one P retries OutputStage "outputs" outputPath in
  if again then e1 ++ e2 ++ e3 ++ later else e1 ++ e2 ++ e3.


(** * Vocabulary of the further properties *)

(** Every alpha byte the buffer holds is 255. *)
Definition alpha_opaque (c : buf) : Prop :=
  ∀ p v, buf_get c (p * 4 + 3) = Some v → v = 255.

(** The image cut down to its first [k] frames. *)
Definition first_frames (k : nat) (img : Img.t) : Img.t :=
  Img.Build (Img.hasAnim img) (Img.width img) (Img.height img) (Img.bgColor img)
    (take k (Img.frames img)).

(** The check run over the delays: [1000 / d] is a positive number with
    a fractional part in its binary form, and rounds to the nearest
    rate. *)
Definition rate_exact (d : Z) : bool :=
  match Prim2SF (JS.of_Z 1000 / JS.of_Z d)%float with
  | S754_finite s m (Zneg p) =>
      negb s
      && (Z.shiftr (2 * Zpos m + Z.shiftl 1 (Zpos p)) (Zpos p + 1) =? nearest_rate d)
  | _ => false
  end.

(** A 2x2 patch stored at offset (0,3): its true row is 6, below a 4x4
    canvas. *)
Definition frame_below : frame :=
  Frame (Fmeta.Build (Some 0) (Some 3) 2 2 false true (Some 100))
        (solid [1; 2; 3; 4] 4).

(** A patch of width 0. *)
Definition frame_thin : frame :=
  Frame (Fmeta.Build (Some 1) (Some 1) 0 2 false true (Some 100)) [].

(** An animation whose first frame lasts three seconds. *)
Definition slow_img : Img.t :=
  Img.Build true 4 4 None
    [Frame (Fmeta.Build (Some 0) (Some 0) 4 4 false false (Some 3000))
           (solid [255; 0; 0; 255] 16)].

(** An animation whose frames all blend and all dispose. *)
Definition flip_img : Img.t :=
  Img.Build true 4 4 None [frame_blue; frame_blue].

(** The directory a stage checks its path against, and the path it is
    given. *)
Definition root_of (uploadRoot : string) (st : stage) : string :=
  match st with
  | InputStage => uploadRoot
  | TempStage => "uploads"
  | OutputStage => "outputs"
  end.

Definition path_of (inputPath tempDir outputPath : option string) (st : stage) :
    option string :=
  match st with
  | InputStage => inputPath
  | TempStage => tempDir
  | OutputStage => outputPath
  end.

(** What a logged line tells about the file system, when the line was
    written in stage [st] of the pass with [r] attempts left. *)
Definition explained (P : Fs.t) (root : string) (r : nat) (e : event) : Prop :=
  let safe st p :=
    isPathSafe (Fs.resolve P) (Fs.realpathSync P r st) (Fs.sep P) (Some p) root in
  match e with
  | Rejected st p => safe st p = false
  | Deleted st p =>
      safe st p = true ∧ Fs.existsSync P r st p = true
      ∧ Fs.remove P r st p = Removed
  | Retrying st p attempts =>
      safe st p = true ∧ Fs.existsSync P r st p = true
      ∧ Fs.remove P r st p = Busy ∧ attempts = r ∧ (0 < r)%nat
  | GaveUp st p =>
      safe st p = true ∧ Fs.existsSync P r st p = true
      ∧ (Fs.remove P r st p = Refused ∨ (Fs.remove P r st p = Busy ∧ r = O))
  end.

Definition event_stage (e : event) : stage :=
  match e with
  | Rejected st _ | Deleted st _ | Retrying st _ _ | GaveUp st _ => st
  end.

Definition event_path (e : event) : string :=
  match e with
  | Rejected _ p | Deleted _ p | Retrying _ p _ | GaveUp _ p => p
  end.



(** A file system for the samples: every path is its own real path and
    exists; the temporary directory is busy in the first pass of a cleanup
    with three retries, everything else can be removed. *)
Definition busy_once : Fs.t :=
  Fs.Build plain_resolve "/" (λ _ _, plain_realpath) (λ _ _ _, true)
    (λ r st _, match st with
               | TempStage => if (r =? 3)%nat then Busy else Removed
               | _ => Removed
               end).

(** * Verification *)

(** ** The number model on known values *)

Lemma math_round_samples :
  (JS.math_round 2.5, JS.math_round (-2.5), JS.math_round 0.5,
   JS.math_round (-0.5), JS.math_round 62.5, JS.math_round (-1.5),
   JS.math_round 3, JS.math_round 0.25, JS.math_round (-0.75))%float
  = (3, -2, 1, -0, 63, -1, 3, 0, -1)%float.
Proof. reflexivity. Qed.

Lemma to_int32_samples :
  (JS.to_int32 3.75, JS.to_int32 (-3.5), JS.to_int32 (JS.of_Z 3000000000),
   JS.to_int32 PrimFloat.nan, JS.to_int32 PrimFloat.infinity)
  = (3, -3, -1294967296, 0, 0).
Proof. reflexivity. Qed.

Lemma of_Z_samples :
  (JS.of_Z 255, JS.of_Z (-7), JS.of_Z (2 ^ 53 + 1), JS.of_Z (2 ^ 64),
   JS.of_Z (- 2 ^ 70))
  = (255, -7, 9007199254740992, 18446744073709551616,
     -1180591620717411303424)%float.
Proof. reflexivity. Qed.

Lemma to_uint8_samples :
  (JS.to_uint8 (Some 255), JS.to_uint8 (Some 256), JS.to_uint8 (Some (-1)),
   JS.to_uint8 None)
  = (255, 0, 255, 0).
Proof. reflexivity. Qed.

(** ** Reads and stores on a buffer *)

Lemma buf_get_set_eq (b : buf) i v :
  buf_get (buf_set b i v) i = (λ _, JS.to_uint8 v) <$> buf_get b i.
Proof.
  unfold buf_get, buf_set. destruct (Z.leb_spec 0 i); [|done].
  destruct (b !! Z.to_nat i) as [old|] eqn:Hb.
  - apply list_lookup_insert_eq. by eapply lookup_lt_Some.
  - rewrite list_insert_ge; [done|]. by apply lookup_ge_None.
Qed.

Lemma buf_get_set_ne (b : buf) i j v :
  i ≠ j → buf_get (buf_set b i v) j = buf_get b j.
Proof.
  intros Hne. unfold buf_get, buf_set.
  destruct (Z.leb_spec 0 i), (Z.leb_spec 0 j); try done.
  apply list_lookup_insert_ne. lia.
Qed.

Lemma length_buf_set (b : buf) i v : length (buf_set b i v) = length b.
Proof. unfold buf_set. case_match; [apply length_insert|done]. Qed.

Lemma buf_get_in_range (b : buf) i :
  is_Some (buf_get b i) ↔ 0 ≤ i < Z.of_nat (length b).
Proof.
  unfold buf_get. destruct (Z.leb_spec 0 i).
  - rewrite lookup_lt_is_Some. lia.
  - split; [by intros [? ?]|lia].
Qed.

Lemma buf_get_nat (b : buf) (n : nat) : buf_get b (Z.of_nat n) = b !! n.
Proof.
  unfold buf_get. rewrite Nat2Z.id. destruct (Z.leb_spec 0 (Z.of_nat n)); [done|lia].
Qed.

Lemma buf_ext (b b' : buf) : (∀ i, buf_get b i = buf_get b' i) → b = b'.
Proof.
  intros H. apply list_eq. intros n. by rewrite <-!buf_get_nat.
Qed.

(** ** Loops whose turns touch disjoint parts of the buffer *)

Section local_fold.
Context {K : Type} (T : K → Z → Prop) (step : K → buf → buf).

Lemma foldl_outside ks c j :
  (∀ k, k ∈ ks → local_on (T k) (step k)) →
  (∀ k, k ∈ ks → ¬ T k j) →
  buf_get (foldl (λ acc k, step k acc) c ks) j = buf_get c j.
Proof.
  revert c. induction ks as [|k ks IH]; intros c Hloc Hout; [done|].
  simpl. rewrite IH.
  - apply (Hloc k); [left|]. apply Hout. left.
  - intros k' Hk'. apply Hloc. by right.
  - intros k' Hk'. apply Hout. by right.
Qed.

Lemma foldl_inside ks c k j :
  NoDup ks →
  (∀ k, k ∈ ks → local_on (T k) (step k)) →
  (∀ k k' i, k ∈ ks → k' ∈ ks → k ≠ k' → T k i → ¬ T k' i) →
  k ∈ ks → T k j →
  buf_get (foldl (λ acc k, step k acc) c ks) j = buf_get (step k c) j.
Proof.
  revert c. induction ks as [|k0 ks IH]; intros c Hnd Hloc Hdisj Hk Hj.
  { by apply elem_of_nil in Hk. }
  apply NoDup_cons in Hnd as [Hk0 Hnd]. simpl.
  apply elem_of_cons in Hk as [->|Hk].
  - apply foldl_outside.
    + intros k' Hk'. apply Hloc. by right.
    + intros k' Hk'. apply (Hdisj k0 k'); [left|by right| |done].
      intros ->. done.
  - rewrite IH; try done.
    + apply (Hloc k); [by right| |done].
      intros i Hi. apply (Hloc k0); [left|].
      apply (Hdisj k k0); [by right|left| |done]. intros ->. done.
    + intros k' Hk'. apply Hloc. by right.
    + intros k1 k2 i ? ?. apply Hdisj; by right.
Qed.

Lemma foldl_local ks :
  NoDup ks →
  (∀ k, k ∈ ks → local_on (T k) (step k)) →
  (∀ k k' i, k ∈ ks → k' ∈ ks → k ≠ k' → T k i → ¬ T k' i) →
  local_on (λ j, ∃ k, k ∈ ks ∧ T k j) (λ c, foldl (λ acc k, step k acc) c ks).
Proof.
  intros Hnd Hloc Hdisj. split.
  - intros c j Hj. apply foldl_outside; [done|]. naive_solver.
  - intros c c' Hagree j (k & Hk & Hj).
    rewrite !(foldl_inside ks _ k j) by done.
    apply (Hloc k); [done| |done]. intros i Hi. apply Hagree. eauto.
Qed.

Lemma foldl_length ks c :
  (∀ k c, length (step k c) = length c) →
  length (foldl (λ acc k, step k acc) c ks) = length c.
Proof.
  intros Hlen. revert c. induction ks as [|k ks IH]; intros c; [done|].
  simpl. by rewrite IH.
Qed.
End local_fold.

(** ** One pixel: four stores at [di], computed from the four bytes found there *)

Lemma copy_pixel_update4 rgba c si di :
  copy_pixel rgba c si di = update4 (λ _, Some (peek4 rgba si)) di c.
Proof. done. Qed.

Lemma blend_pixel_update4 rgba c si di :
  blend_pixel rgba c si di = update4 (blended (peek4 rgba si)) di c.
Proof.
  unfold blend_pixel, update4, blended, peek4.
  destruct (JS.strict_eq (buf_get rgba (si + 3)) 255); [done|].
  destruct (JS.strict_eq (buf_get rgba (si + 3)) 0); [done|].
  by destruct (JS.gt _ _).
Qed.

Lemma buf_get_store4_out c di q j :
  ¬ px_range di j → buf_get (store4 c di q) j = buf_get c j.
Proof.
  unfold px_range. intros Hj. destruct q as [[[v0 v1] v2] v3]. simpl.
  rewrite !buf_get_set_ne by lia. done.
Qed.

Lemma buf_get_store4_0 c di v0 v1 v2 v3 :
  buf_get (store4 c di (v0, v1, v2, v3)) (di + 0)
  = (λ _, JS.to_uint8 v0) <$> buf_get c (di + 0).
Proof. simpl. rewrite !buf_get_set_ne by lia. apply buf_get_set_eq. Qed.

Lemma buf_get_store4_1 c di v0 v1 v2 v3 :
  buf_get (store4 c di (v0, v1, v2, v3)) (di + 1)
  = (λ _, JS.to_uint8 v1) <$> buf_get c (di + 1).
Proof.
  simpl. rewrite !buf_get_set_ne by lia. rewrite buf_get_set_eq.
  by rewrite buf_get_set_ne by lia.
Qed.

Lemma buf_get_store4_2 c di v0 v1 v2 v3 :
  buf_get (store4 c di (v0, v1, v2, v3)) (di + 2)
  = (λ _, JS.to_uint8 v2) <$> buf_get c (di + 2).
Proof.
  simpl. rewrite !buf_get_set_ne by lia. rewrite buf_get_set_eq.
  by rewrite !buf_get_set_ne by lia.
Qed.

Lemma buf_get_store4_3 c di v0 v1 v2 v3 :
  buf_get (store4 c di (v0, v1, v2, v3)) (di + 3)
  = (λ _, JS.to_uint8 v3) <$> buf_get c (di + 3).
Proof.
  simpl. rewrite buf_get_set_eq. by rewrite !buf_get_set_ne by lia.
Qed.

Lemma px_range_cases di j :
  px_range di j → j = di + 0 ∨ j = di + 1 ∨ j = di + 2 ∨ j = di + 3.
Proof. unfold px_range. lia. Qed.

Lemma length_store4 c di q : length (store4 c di q) = length c.
Proof. destruct q as [[[v0 v1] v2] v3]. simpl. by rewrite !length_buf_set. Qed.

Lemma length_update4 F di c : length (update4 F di c) = length c.
Proof. unfold update4. case_match; [apply length_store4|done]. Qed.

Lemma peek4_agree c c' di :
  (∀ j, px_range di j → buf_get c j = buf_get c' j) → peek4 c di = peek4 c' di.
Proof.
  intros H. unfold peek4. by rewrite !H by (unfold px_range; lia).
Qed.

Lemma update4_local F di : local_on (px_range di) (update4 F di).
Proof.
  split.
  - intros c j Hj. unfold update4. case_match; [|done].
    by apply buf_get_store4_out.
  - intros c c' Hagree j Hj. unfold update4.
    rewrite <-(peek4_agree c c' di Hagree).
    destruct (F (peek4 c di)) as [[[[v0 v1] v2] v3]|]; [|by apply Hagree].
    destruct (px_range_cases _ _ Hj) as [-> | [-> | [-> | ->] ] ].
    + rewrite !buf_get_store4_0. by rewrite Hagree.
    + rewrite !buf_get_store4_1. by rewrite Hagree.
    + rewrite !buf_get_store4_2. by rewrite Hagree.
    + rewrite !buf_get_store4_3. by rewrite Hagree.
Qed.

Lemma copy_pixel_body : pixel_body copy_pixel.
Proof. intros rgba si di. eexists. intros c. apply copy_pixel_update4. Qed.

Lemma blend_pixel_body : pixel_body blend_pixel.
Proof. intros rgba si di. eexists. intros c. apply blend_pixel_update4. Qed.

Lemma pixel_body_local pixel rgba si di :
  pixel_body pixel → local_on (px_range di) (λ c, pixel rgba c si di).
Proof.
  intros Hb. destruct (Hb rgba si di) as [F HF].
  destruct (update4_local F di) as [Hw Hr]. split.
  - intros c j Hj. rewrite HF. by apply Hw.
  - intros c c' Hagree j Hj. rewrite !HF. by apply Hr.
Qed.

Lemma pixel_body_length pixel rgba si di c :
  pixel_body pixel → length (pixel rgba c si di) = length c.
Proof.
  intros Hb. destruct (Hb rgba si di) as [F HF]. rewrite HF. apply length_update4.
Qed.

(** ** The patch loops *)

Section patch_loop.
Context (pixel : buf → buf → Z → Z → buf) (Hpixel : pixel_body pixel).
Context (width x0 y0 fw fh : Z) (rgba : buf).

Lemma patch_loop_rows c :
  patch_loop pixel width x0 y0 fw fh rgba c
  = for_loop fh (patch_row pixel width x0 y0 fw rgba) c.
Proof. done. Qed.

Lemma patch_row_local y :
  local_on (in_row width x0 y0 fw y) (patch_row pixel width x0 y0 fw rgba y).
Proof.
  apply (foldl_local (λ x, px_range (target width x0 y0 x y))
           (λ x c, pixel rgba c (source fw x y) (target width x0 y0 x y))).
  - apply NoDup_seqZ.
  - intros x _. by apply pixel_body_local.
  - intros x x' i _ _ Hne. unfold px_range, target. lia.
Qed.

Lemma rows_disjoint y y' i :
  fw ≤ width → y ≠ y' →
  in_row width x0 y0 fw y i → ¬ in_row width x0 y0 fw y' i.
Proof.
  intros Hfw Hne (x & Hx & Hi) (x' & Hx' & Hi').
  apply elem_of_seqZ in Hx, Hx'. unfold px_range, target in *.
  assert (y < y' ∨ y' < y) as [Hlt|Hlt] by lia.
  - assert (width * 1 ≤ width * (y' - y)) by (apply Z.mul_le_mono_nonneg_l; lia).
    lia.
  - assert (width * 1 ≤ width * (y - y')) by (apply Z.mul_le_mono_nonneg_l; lia).
    lia.
Qed.

Lemma patch_loop_outside c j :
  (∀ x y, 0 ≤ x < fw → 0 ≤ y < fh → ¬ px_range (target width x0 y0 x y) j) →
  buf_get (patch_loop pixel width x0 y0 fw fh rgba c) j = buf_get c j.
Proof.
  intros Hout. rewrite patch_loop_rows. unfold for_loop.
  apply (foldl_outside (in_row width x0 y0 fw) (patch_row pixel width x0 y0 fw rgba)).
  - intros y _. apply patch_row_local.
  - intros y Hy (x & Hx & Hj). apply elem_of_seqZ in Hx, Hy.
    apply (Hout x y); [lia..|done].
Qed.

Lemma patch_loop_inside c x y j :
  fw ≤ width → 0 ≤ x < fw → 0 ≤ y < fh →
  px_range (target width x0 y0 x y) j →
  buf_get (patch_loop pixel width x0 y0 fw fh rgba c) j
  = buf_get (pixel rgba c (source fw x y) (target width x0 y0 x y)) j.
Proof.
  intros Hfw Hx Hy Hj. rewrite patch_loop_rows. unfold for_loop.
  rewrite (foldl_inside (in_row width x0 y0 fw)
             (patch_row pixel width x0 y0 fw rgba) _ c y j).
  - unfold patch_row, for_loop.
    apply (foldl_inside (λ x, px_range (target width x0 y0 x y))
             (λ x c, pixel rgba c (source fw x y) (target width x0 y0 x y))).
    + apply NoDup_seqZ.
    + intros x' _. by apply pixel_body_local.
    + intros x1 x2 i _ _ Hne. unfold px_range, target. lia.
    + apply elem_of_seqZ. lia.
    + done.
  - apply NoDup_seqZ.
  - intros y' _. apply patch_row_local.
  - intros y1 y2 i _ _ Hne. by apply rows_disjoint.
  - apply elem_of_seqZ. lia.
  - exists x. split; [apply elem_of_seqZ; lia|done].
Qed.

Lemma patch_loop_length c :
  length (patch_loop pixel width x0 y0 fw fh rgba c) = length c.
Proof.
  rewrite patch_loop_rows. unfold for_loop. apply foldl_length.
  intros y c'. unfold patch_row, for_loop. apply foldl_length.
  intros x c''. by apply pixel_body_length.
Qed.
End patch_loop.


(** ** What one frame does to the canvas *)

Lemma for_loop_ext {A} n (body body' : Z → A → A) (c : A) :
  (∀ i a, body i a = body' i a) → for_loop n body c = for_loop n body' c.
Proof.
  intros Heq. unfold for_loop. generalize (seqZ 0 n). intros l. revert c.
  induction l as [|i l IH]; intros c; [done|]. simpl. by rewrite Heq, IH.
Qed.

Lemma fill_pixel_body bg : pixel_body (fill_pixel bg).
Proof. intros rgba si di. by exists (λ _, Some (bg !! 0%nat, bg !! 1%nat, bg !! 2%nat, bg !! 3%nat)). Qed.

Lemma clear_region_patch_loop width x0 y0 fw fh bg c :
  clear_region width x0 y0 fw fh bg c
  = patch_loop (fill_pixel bg) width x0 y0 fw fh [] c.
Proof.
  unfold clear_region, patch_loop. apply for_loop_ext. intros y c'.
  apply for_loop_ext. intros x c''. unfold fill_pixel, store4.
  by replace ((y0 + y) * width * 4 + x0 * 4 + x * 4)
    with (((y0 + y) * width + (x0 + x)) * 4) by lia.
Qed.

Lemma buf_get_Some_in_range (c : buf) i :
  0 ≤ i < Z.of_nat (length c) → ∃ v, buf_get c i = Some v.
Proof. intros Hi. by apply buf_get_in_range. Qed.

Lemma peek4_update4 F di c :
  0 ≤ di → di + 3 < Z.of_nat (length c) →
  peek4 (update4 F di c) di
  = match F (peek4 c di) with Some q => stored q | None => peek4 c di end.
Proof.
  intros Hlo Hhi. unfold update4.
  destruct (F (peek4 c di)) as [[[[v0 v1] v2] v3]|]; [|done].
  unfold peek4 at 1.
  rewrite buf_get_store4_0, buf_get_store4_1, buf_get_store4_2, buf_get_store4_3.
  destruct (buf_get_Some_in_range c (di + 0)) as [? ->]; [lia|].
  destruct (buf_get_Some_in_range c (di + 1)) as [? ->]; [lia|].
  destruct (buf_get_Some_in_range c (di + 2)) as [? ->]; [lia|].
  destruct (buf_get_Some_in_range c (di + 3)) as [? ->]; [lia|].
  done.
Qed.

Lemma target_pixel_index width x0 y0 x y :
  target width x0 y0 x y = pixel_index width (x0 + x) (y0 + y).
Proof. done. Qed.

Lemma pixel_index_in_range width height c X Y :
  canvas_of width height c → 0 ≤ X < width → 0 ≤ Y < height →
  0 ≤ pixel_index width X Y ∧ pixel_index width X Y + 3 < Z.of_nat (length c).
Proof.
  intros (Hw & Hh & Hlen) HX HY. unfold pixel_index. rewrite Hlen.
  assert (0 ≤ Y * width) by (apply Z.mul_nonneg_nonneg; lia).
  assert ((Y + 1) * width ≤ height * width)
    by (apply Z.mul_le_mono_nonneg_r; lia).
  lia.
Qed.

Lemma pixel_index_inj width X Y X' Y' :
  0 ≤ X < width → 0 ≤ X' < width →
  px_range (pixel_index width X Y) (pixel_index width X' Y') →
  X = X' ∧ Y = Y'.
Proof.
  unfold px_range, pixel_index. intros HX HX' Hr.
  assert (Y = Y') as ->.
  { assert (Y < Y' ∨ Y = Y' ∨ Y' < Y) as [Hlt|[?|Hlt]] by lia; [|done|].
    - assert (width * 1 ≤ width * (Y' - Y)) by (apply Z.mul_le_mono_nonneg_l; lia).
      lia.
    - assert (width * 1 ≤ width * (Y - Y')) by (apply Z.mul_le_mono_nonneg_l; lia).
      lia. }
  split; [lia|done].
Qed.

Section one_patch.
Context (pixel : buf → buf → Z → Z → buf) (Hpixel : pixel_body pixel).
Context (width height x0 y0 fw fh : Z) (rgba c : buf).
Context (Hcanvas : canvas_of width height c).
Context (Hon : on_canvas width height x0 y0 fw fh).

Lemma patch_loop_peek_inside x y :
  0 ≤ x < fw → 0 ≤ y < fh →
  peek4 (patch_loop pixel width x0 y0 fw fh rgba c) (target width x0 y0 x y)
  = peek4 (pixel rgba c (source fw x y) (target width x0 y0 x y))
      (target width x0 y0 x y).
Proof.
  intros Hx Hy. destruct Hon as (? & ? & ? & ?). unfold peek4.
  rewrite !(patch_loop_inside pixel Hpixel width x0 y0 fw fh rgba c x y)
    by (unfold px_range; lia).
  done.
Qed.

Lemma patch_loop_peek_outside X Y :
  0 ≤ X < width →
  ¬ (x0 ≤ X < x0 + fw ∧ y0 ≤ Y < y0 + fh) →
  peek4 (patch_loop pixel width x0 y0 fw fh rgba c) (pixel_index width X Y)
  = peek4 c (pixel_index width X Y).
Proof.
  intros HX Hout. destruct Hon as (? & ? & ? & ?).
  assert (∀ k, 0 ≤ k < 4 →
    buf_get (patch_loop pixel width x0 y0 fw fh rgba c) (pixel_index width X Y + k)
    = buf_get c (pixel_index width X Y + k)) as Hk.
  { intros k Hk. apply (patch_loop_outside pixel Hpixel).
    intros x y Hx Hy Hr. rewrite target_pixel_index in Hr.
    assert (px_range (pixel_index width (x0 + x) (y0 + y)) (pixel_index width X Y))
      as Hr' by (revert Hr; unfold px_range, pixel_index; lia).
    apply pixel_index_inj in Hr' as [HX' HY']; [|lia|done].
    apply Hout. lia. }
  unfold peek4. rewrite !Hk by lia. done.
Qed.

Lemma patch_loop_canvas :
  canvas_of width height (patch_loop pixel width x0 y0 fw fh rgba c).
Proof.
  destruct Hcanvas as (? & ? & ?). split_and!; [done..|].
  by rewrite patch_loop_length.
Qed.
End one_patch.

Section one_frame.
Context (width height : Z) (f : frame) (c : buf).
Context (Hcanvas : canvas_of width height c).
Context (Hon : frame_on_canvas width height f).

Lemma draw_frame_length : length (draw_frame width f c) = length c.
Proof.
  unfold draw_frame, composite. destruct (negb _).
  - apply patch_loop_length, copy_pixel_body.
  - apply patch_loop_length, blend_pixel_body.
Qed.

Lemma draw_frame_canvas : canvas_of width height (draw_frame width f c).
Proof.
  destruct Hcanvas as (? & ? & ?). split_and!; [done..|].
  by rewrite draw_frame_length.
Qed.

Lemma draw_frame_inside x y :
  0 ≤ x < Fmeta.width (fmeta f) → 0 ≤ y < Fmeta.height (fmeta f) →
  canvas_px width (draw_frame width f c)
    (x0_of (fmeta f) + x) (y0_of (fmeta f) + y)
  = drawn (Fmeta.blend (fmeta f)) (patch_px f x y)
      (canvas_px width c (x0_of (fmeta f) + x) (y0_of (fmeta f) + y)).
Proof.
  intros Hx Hy. unfold canvas_px. rewrite <-target_pixel_index.
  destruct Hon as (? & ? & ? & ?).
  destruct (pixel_index_in_range width height c
              (x0_of (fmeta f) + x) (y0_of (fmeta f) + y)) as [Hlo Hhi];
    [done|lia..|].
  rewrite <-target_pixel_index in Hlo, Hhi.
  unfold draw_frame, composite, drawn, patch_px.
  destruct (Fmeta.blend (fmeta f)); simpl.
  - rewrite (patch_loop_peek_inside _ blend_pixel_body width height) by done.
    rewrite blend_pixel_update4. by rewrite peek4_update4.
  - rewrite (patch_loop_peek_inside _ copy_pixel_body width height) by done.
    rewrite copy_pixel_update4. by rewrite peek4_update4.
Qed.

Lemma draw_frame_outside X Y :
  0 ≤ X < width → ¬ in_region f X Y →
  canvas_px width (draw_frame width f c) X Y = canvas_px width c X Y.
Proof.
  intros HX Hout. unfold canvas_px, draw_frame, composite.
  destruct (negb _).
  - by apply (patch_loop_peek_outside _ copy_pixel_body width height).
  - by apply (patch_loop_peek_outside _ blend_pixel_body width height).
Qed.

Lemma dispose_frame_length bg : length (dispose_frame width bg f c) = length c.
Proof.
  unfold dispose_frame. destruct (Fmeta.dispose _); [|done].
  rewrite clear_region_patch_loop. apply patch_loop_length, fill_pixel_body.
Qed.

Lemma dispose_frame_inside bg X Y :
  Fmeta.dispose (fmeta f) = true → in_region f X Y →
  canvas_px width (dispose_frame width bg f c) X Y = stored (bg_quad bg).
Proof.
  intros Hd [HX HY]. unfold dispose_frame. rewrite Hd, clear_region_patch_loop.
  replace X with (x0_of (fmeta f) + (X - x0_of (fmeta f))) by lia.
  replace Y with (y0_of (fmeta f) + (Y - y0_of (fmeta f))) by lia.
  unfold canvas_px. rewrite <-target_pixel_index.
  destruct Hon as (? & ? & ? & ?).
  destruct (pixel_index_in_range width height c
              (x0_of (fmeta f) + (X - x0_of (fmeta f)))
              (y0_of (fmeta f) + (Y - y0_of (fmeta f)))) as [Hlo Hhi];
    [done|lia..|].
  rewrite <-target_pixel_index in Hlo, Hhi.
  rewrite (patch_loop_peek_inside _ (fill_pixel_body bg) width height) by (done || lia).
  unfold fill_pixel.
  change (store4 c ?di (bg !! 0%nat, bg !! 1%nat, bg !! 2%nat, bg !! 3%nat))
    with (update4 (λ _, Some (bg_quad bg)) di c).
  by rewrite peek4_update4.
Qed.

Lemma dispose_frame_outside bg X Y :
  0 ≤ X < width → ¬ in_region f X Y →
  canvas_px width (dispose_frame width bg f c) X Y = canvas_px width c X Y.
Proof.
  intros HX Hout. unfold dispose_frame. destruct (Fmeta.dispose _); [|done].
  rewrite clear_region_patch_loop.
  by apply (patch_loop_peek_outside _ (fill_pixel_body bg) width height).
Qed.
End one_frame.

(** ** The canvas through the loop *)

Lemma initial_canvas_fill width height bg :
  initial_canvas width height bg
  = for_loop (width * height) (λ i c, update4 (λ _, Some (bg_quad bg)) (i * 4) c)
      (buf_alloc (width * height * 4)).
Proof. done. Qed.

Lemma initial_canvas_ok width height bg :
  0 ≤ width → 0 ≤ height → canvas_of width height (initial_canvas width height bg).
Proof.
  intros Hw Hh. split_and!; [done..|].
  rewrite initial_canvas_fill. unfold for_loop.
  rewrite (foldl_length (λ i c, update4 (λ _, Some (bg_quad bg)) (i * 4) c))
    by (intros; apply length_update4).
  unfold buf_alloc. rewrite length_replicate.
  assert (0 ≤ width * height) by (by apply Z.mul_nonneg_nonneg). lia.
Qed.

Lemma initial_canvas_px width height bg X Y :
  0 ≤ X < width → 0 ≤ Y < height →
  canvas_px width (initial_canvas width height bg) X Y = stored (bg_quad bg).
Proof.
  intros HX HY.
  assert (0 ≤ Y * width) by (apply Z.mul_nonneg_nonneg; lia).
  assert ((Y + 1) * width ≤ height * width) by (apply Z.mul_le_mono_nonneg_r; lia).
  assert (0 ≤ width * height) by (apply Z.mul_nonneg_nonneg; lia).
  unfold canvas_px, pixel_index. rewrite initial_canvas_fill. unfold for_loop.
  assert (∀ k, 0 ≤ k < 4 →
    buf_get (foldl (λ acc i, update4 (λ _, Some (bg_quad bg)) (i * 4) acc)
               (buf_alloc (width * height * 4)) (seqZ 0 (width * height)))
      ((Y * width + X) * 4 + k)
    = buf_get (update4 (λ _, Some (bg_quad bg)) ((Y * width + X) * 4)
                 (buf_alloc (width * height * 4)))
        ((Y * width + X) * 4 + k)) as Hk.
  { intros k Hk.
    apply (foldl_inside (λ i, px_range (i * 4))
             (λ i c, update4 (λ _, Some (bg_quad bg)) (i * 4) c)).
    - apply NoDup_seqZ.
    - intros i _. apply update4_local.
    - intros i i' j _ _ Hne. unfold px_range. lia.
    - apply elem_of_seqZ. lia.
    - unfold px_range. lia. }
  unfold peek4 at 1. rewrite !Hk by lia.
  change (buf_get ?b (?i + 0), buf_get ?b (?i + 1), buf_get ?b (?i + 2),
          buf_get ?b (?i + 3)) with (peek4 b i).
  rewrite peek4_update4; [done|lia|].
  unfold buf_alloc. rewrite length_replicate. lia.
Qed.

Lemma after_frame_canvas width height bg c f :
  canvas_of width height c → canvas_of width height (after_frame width bg c f).
Proof.
  intros (? & ? & ?). split_and!; [done..|].
  unfold after_frame. by rewrite dispose_frame_length, draw_frame_length.
Qed.

Lemma canvas_before_ok width height bg fs c i :
  canvas_of width height c → canvas_of width height (canvas_before width bg fs c i).
Proof.
  unfold canvas_before. generalize (take i fs). intros l. revert c.
  induction l as [|f l IH]; intros c Hc; [done|].
  simpl. by apply IH, after_frame_canvas.
Qed.

(** ** Bytes of a well-formed patch *)

Lemma bytes_lookup (b : list Z) (n : nat) v : bytes b → b !! n = Some v → 0 ≤ v < 256.
Proof. intros Hb Hn. by apply (Forall_lookup_1 _ _ _ _ Hb Hn). Qed.

Lemma buf_get_byte (b : buf) i :
  bytes b → 0 ≤ i < Z.of_nat (length b) →
  ∃ v, buf_get b i = Some v ∧ 0 ≤ v < 256.
Proof.
  intros Hb Hi. destruct (buf_get_Some_in_range b i Hi) as [v Hv].
  exists v. split; [done|].
  unfold buf_get in Hv. destruct (Z.leb_spec 0 i); [|done].
  by eapply bytes_lookup.
Qed.

Lemma to_uint8_byte v : 0 ≤ v < 256 → JS.to_uint8 (Some v) = v.
Proof. intros Hv. simpl. by apply Z.mod_small. Qed.

Lemma source_in_range fw fh x y :
  0 ≤ x < fw → 0 ≤ y < fh →
  0 ≤ source fw x y ∧ source fw x y + 3 < fw * fh * 4.
Proof.
  intros Hx Hy. unfold source.
  assert (0 ≤ y * fw) by (apply Z.mul_nonneg_nonneg; lia).
  assert ((y + 1) * fw ≤ fh * fw) by (apply Z.mul_le_mono_nonneg_r; lia).
  lia.
Qed.

Lemma patch_px_bytes f x y :
  patch_ok f →
  0 ≤ x < Fmeta.width (fmeta f) → 0 ≤ y < Fmeta.height (fmeta f) →
  ∃ r g b a, patch_px f x y = (Some r, Some g, Some b, Some a) ∧
    0 ≤ r < 256 ∧ 0 ≤ g < 256 ∧ 0 ≤ b < 256 ∧ 0 ≤ a < 256.
Proof.
  intros [Hb Hlen] Hx Hy. unfold patch_px, peek4.
  destruct (source_in_range _ _ x y Hx Hy) as [Hlo Hhi]. rewrite <-Hlen in Hhi.
  destruct (buf_get_byte (rgba f) (source (Fmeta.width (fmeta f)) x y + 0))
    as (r & -> & ?); [done|lia|].
  destruct (buf_get_byte (rgba f) (source (Fmeta.width (fmeta f)) x y + 1))
    as (g & -> & ?); [done|lia|].
  destruct (buf_get_byte (rgba f) (source (Fmeta.width (fmeta f)) x y + 2))
    as (b & -> & ?); [done|lia|].
  destruct (buf_get_byte (rgba f) (source (Fmeta.width (fmeta f)) x y + 3))
    as (a & -> & ?); [done|lia|].
  by exists r, g, b, a.
Qed.

Lemma x0_of_Some fm ox : Fmeta.x fm = Some ox → x0_of fm = 2 * ox.
Proof.
  intros H. unfold x0_of, JS.or_default. rewrite H.
  destruct (Z.eqb_spec ox 0); lia.
Qed.

Lemma y0_of_Some fm oy : Fmeta.y fm = Some oy → y0_of fm = 2 * oy.
Proof.
  intros H. unfold y0_of, JS.or_default. rewrite H.
  destruct (Z.eqb_spec oy 0); lia.
Qed.

Lemma sample_canvas_ok : canvas_of 4 4 sample_canvas.
Proof. by vm_compute. Qed.

(** * The claims *)

Lemma frame_blue_on_canvas : frame_on_canvas 4 4 frame_blue.
Proof. by vm_compute. Qed.

Lemma frame_red_ok : patch_ok frame_red.
Proof. split; [|done]. unfold bytes. vm_compute. repeat constructor; done. Qed.

Lemma frame_red_on_canvas : frame_on_canvas 4 4 frame_red.
Proof. by vm_compute. Qed.

Lemma white_bytes : bytes white.
Proof. unfold bytes, white. repeat constructor; lia. Qed.

(** C2.  A patch stored at offset [(ox, oy)] is composited, and later
    disposed, with [x0 = ox * 2] and [y0 = oy * 2], whatever its flags and
    whatever the canvas.  On a canvas that contains the doubled rectangle,
    the canvas pixel [(2*ox + x, 2*oy + y)] receives patch pixel [(x, y)]
    and every pixel outside [2*ox, 2*ox+fw) x [2*oy, 2*oy+fh) keeps its
    value. *)
Theorem C2_patch_at_doubled_offset f ox oy :
  Fmeta.x (fmeta f) = Some ox → Fmeta.y (fmeta f) = Some oy →
  (∀ width c,
     draw_frame width f c
     = composite width (ox * 2) (oy * 2) (Fmeta.width (fmeta f))
         (Fmeta.height (fmeta f)) (Fmeta.blend (fmeta f)) (rgba f) c)
  ∧ (∀ width bg c, Fmeta.dispose (fmeta f) = true →
     dispose_frame width bg f c
     = clear_region width (ox * 2) (oy * 2) (Fmeta.width (fmeta f))
         (Fmeta.height (fmeta f)) bg c)
  ∧ (∀ width height c,
     canvas_of width height c →
     on_canvas width height (2 * ox) (2 * oy)
       (Fmeta.width (fmeta f)) (Fmeta.height (fmeta f)) →
     (∀ x y, 0 ≤ x < Fmeta.width (fmeta f) → 0 ≤ y < Fmeta.height (fmeta f) →
        canvas_px width (draw_frame width f c) (2 * ox + x) (2 * oy + y)
        = drawn (Fmeta.blend (fmeta f)) (patch_px f x y)
            (canvas_px width c (2 * ox + x) (2 * oy + y)))
     ∧ (∀ X Y, 0 ≤ X < width →
        ¬ (2 * ox ≤ X < 2 * ox + Fmeta.width (fmeta f) ∧
           2 * oy ≤ Y < 2 * oy + Fmeta.height (fmeta f)) →
        canvas_px width (draw_frame width f c) X Y = canvas_px width c X Y)).
Proof.
  intros Hx Hy.
  pose proof (x0_of_Some _ _ Hx) as Hx0. pose proof (y0_of_Some _ _ Hy) as Hy0.
  split_and!.
  - intros width c. unfold draw_frame. by rewrite Hx0, Hy0, !(Z.mul_comm 2).
  - intros width bg c Hd. unfold dispose_frame.
    by rewrite Hd, Hx0, Hy0, !(Z.mul_comm 2).
  - intros width height c Hc Hon.
    assert (frame_on_canvas width height f) as Hon'.
    { unfold frame_on_canvas. by rewrite Hx0, Hy0. }
    split.
    + intros x y ? ?. rewrite <-Hx0, <-Hy0. by eapply draw_frame_inside.
    + intros X Y ? Hout. eapply draw_frame_outside; [done..|].
      unfold in_region. by rewrite Hx0, Hy0.
Qed.

Lemma C2_patch_at_doubled_offset_witness :
  canvas_of 4 4 sample_canvas ∧ on_canvas 4 4 (2 * 1) (2 * 1) 2 2 ∧
  canvas_px 4 (draw_frame 4 frame_blue sample_canvas) (2 * 1 + 0) (2 * 1 + 1)
  = (Some 0, Some 0, Some 255, Some 255).
Proof.
  assert (on_canvas 4 4 (2 * 1) (2 * 1) 2 2) as Hon by (unfold on_canvas; lia).
  split; [apply sample_canvas_ok|]. split; [done|].
  destruct (C2_patch_at_doubled_offset frame_blue 1 1 eq_refl eq_refl)
    as (_ & _ & Hpx).
  destruct (Hpx 4 4 sample_canvas sample_canvas_ok Hon) as [Hin _].
  rewrite Hin by (simpl; lia). reflexivity.
Defined.

(** C3.  For a frame with [dispose = true] the file written is the
    canvas as composited, before the clear, and the loop goes on to the
    next frame from the cleared canvas.  On a canvas that contains the
    patch, the snapshot shows the patch, and the clear sets every pixel of
    the patch region to the background colour in all four channels and
    leaves the rest as in the snapshot. *)
Theorem C3_dispose_after_snapshot f :
  Fmeta.dispose (fmeta f) = true →
  (∀ width bg i rest c,
     frame_loop width bg i (f :: rest) c
     = (frame_name i, Png (draw_frame width f c))
       :: frame_loop width bg (i + 1) rest
            (clear_region width (x0_of (fmeta f)) (y0_of (fmeta f))
               (Fmeta.width (fmeta f)) (Fmeta.height (fmeta f)) bg
               (draw_frame width f c)))
  ∧ (∀ width height c r g b a,
     canvas_of width height c → frame_on_canvas width height f →
     bytes [r; g; b; a] →
     (∀ x y, 0 ≤ x < Fmeta.width (fmeta f) → 0 ≤ y < Fmeta.height (fmeta f) →
        canvas_px width (draw_frame width f c)
          (x0_of (fmeta f) + x) (y0_of (fmeta f) + y)
        = drawn (Fmeta.blend (fmeta f)) (patch_px f x y)
            (canvas_px width c (x0_of (fmeta f) + x) (y0_of (fmeta f) + y)))
     ∧ (∀ X Y, in_region f X Y →
        canvas_px width
          (dispose_frame width [r; g; b; a] f (draw_frame width f c)) X Y
        = (Some r, Some g, Some b, Some a))
     ∧ (∀ X Y, 0 ≤ X < width → ¬ in_region f X Y →
        canvas_px width
          (dispose_frame width [r; g; b; a] f (draw_frame width f c)) X Y
        = canvas_px width (draw_frame width f c) X Y)).
Proof.
  intros Hd. split.
  - intros width bg i rest c. cbn [frame_loop frame_step].
    unfold dispose_frame. by rewrite Hd.
  - intros width height c r g b a Hc Hon Hbg.
    pose proof (draw_frame_canvas width height f c Hc) as Hc'.
    split_and!.
    + intros x y ? ?. by eapply draw_frame_inside.
    + intros X Y Hin.
      rewrite (dispose_frame_inside width height f _ Hc' Hon) by done.
      unfold bg_quad, stored. cbn [lookup list_lookup].
      rewrite !to_uint8_byte; [done|..].
      * by apply (bytes_lookup [r; g; b; a] 3 a).
      * by apply (bytes_lookup [r; g; b; a] 2 b).
      * by apply (bytes_lookup [r; g; b; a] 1 g).
      * by apply (bytes_lookup [r; g; b; a] 0 r).
    + intros X Y ? ?. by eapply dispose_frame_outside.
Qed.

Lemma C3_dispose_after_snapshot_witness :
  Fmeta.dispose (fmeta frame_blue) = true ∧
  canvas_of 4 4 sample_canvas ∧ frame_on_canvas 4 4 frame_blue ∧ bytes white ∧
  canvas_px 4 (draw_frame 4 frame_blue sample_canvas) 2 3
  = (Some 0, Some 0, Some 255, Some 255) ∧
  canvas_px 4 (dispose_frame 4 white frame_blue (draw_frame 4 frame_blue sample_canvas)) 2 3
  = (Some 255, Some 255, Some 255, Some 255).
Proof.
  destruct (C3_dispose_after_snapshot frame_blue eq_refl) as [_ Hpx].
  destruct (Hpx 4 4 sample_canvas 255 255 255 255 sample_canvas_ok
              frame_blue_on_canvas white_bytes) as (Hsnap & Hclear & _).
  split; [done|]. split; [apply sample_canvas_ok|].
  split; [apply frame_blue_on_canvas|]. split; [apply white_bytes|]. split.
  - apply (Hsnap 0 1); simpl; lia.
  - apply Hclear. unfold in_region. vm_compute. by repeat split.
Defined.

(** C4 (as stated, refuted).  The program does not clip: a 1x1 patch
    stored at offset (1,0) of a 2x2 canvas has true column 2, outside the
    canvas, and its pixel lands on column 0 of the following row. *)
Lemma C4_counterexample :
  ¬ frame_on_canvas 2 2 frame_off_edge ∧
  ¬ in_region frame_off_edge 0 1 ∧
  canvas_px 2 small_canvas 0 1 = (Some 255, Some 255, Some 255, Some 255) ∧
  canvas_px 2 (draw_frame 2 frame_off_edge small_canvas) 0 1
  = (Some 1, Some 2, Some 3, Some 4).
Proof.
  split_and!.
  - unfold frame_on_canvas, on_canvas. vm_compute. intros (_ & _ & H & _). by apply H.
  - unfold in_region. vm_compute. intros [[H _] _]. by apply H.
  - reflexivity.
  - reflexivity.
Qed.

(** C4 (amended).  No clipping takes place, but no store ever lands
    outside the buffer: for every patch, on the canvas or not, the canvas
    keeps its length through compositing and disposal.  For a patch whose
    rectangle lies on the canvas, no pixel outside the rectangle is
    changed by either. *)
Theorem C4_writes_stay_in_canvas width f c bg :
  length (draw_frame width f c) = length c
  ∧ length (dispose_frame width bg f c) = length c
  ∧ (∀ height X Y,
       canvas_of width height c → frame_on_canvas width height f →
       0 ≤ X < width → ¬ in_region f X Y →
       canvas_px width (draw_frame width f c) X Y = canvas_px width c X Y
       ∧ canvas_px width (dispose_frame width bg f c) X Y = canvas_px width c X Y).
Proof.
  split_and!.
  - apply draw_frame_length.
  - apply dispose_frame_length.
  - intros height X Y Hc Hon HX Hout. split.
    + by eapply draw_frame_outside.
    + by eapply dispose_frame_outside.
Qed.

Lemma C4_writes_stay_in_canvas_witness :
  canvas_of 4 4 sample_canvas ∧ frame_on_canvas 4 4 frame_blue ∧
  ¬ in_region frame_blue 1 2 ∧
  length (draw_frame 4 frame_blue sample_canvas) = 64%nat ∧
  canvas_px 4 (draw_frame 4 frame_blue sample_canvas) 1 2
  = (Some 255, Some 255, Some 255, Some 255).
Proof.
  assert (¬ in_region frame_blue 1 2) as Hout.
  { unfold in_region. vm_compute. intros [[H _] _]. by apply H. }
  destruct (C4_writes_stay_in_canvas 4 frame_blue sample_canvas white)
    as (Hlen & _ & Hpx).
  split_and!; [apply sample_canvas_ok|apply frame_blue_on_canvas|done|..].
  - by rewrite Hlen.
  - destruct (Hpx 4 1 2 sample_canvas_ok frame_blue_on_canvas) as [-> _];
      [lia|done|reflexivity].
Defined.

(** C5.  A source pixel of alpha 255 under [blend = true]: the pixel body
    does exactly what the [blend = false] body does, on every canvas and
    at every target, and the canvas pixel it leaves holds the three colour
    bytes of the source and alpha 255, whatever the canvas held; so the
    canvas pixel the frame leaves is (sr, sg, sb, 255), the same with
    either value of the flag. *)
Theorem C5_opaque_blend_is_overwrite f x y :
  buf_get (rgba f) (source (Fmeta.width (fmeta f)) x y + 3) = Some 255 →
  (∀ c di,
     blend_pixel (rgba f) c (source (Fmeta.width (fmeta f)) x y) di
     = copy_pixel (rgba f) c (source (Fmeta.width (fmeta f)) x y) di)
  ∧ (∀ c di,
     0 ≤ di → di + 3 < Z.of_nat (length c) →
     peek4 (blend_pixel (rgba f) c (source (Fmeta.width (fmeta f)) x y) di) di
     = stored (patch_px f x y))
  ∧ (∀ width height c,
     canvas_of width height c → frame_on_canvas width height f →
     0 ≤ x < Fmeta.width (fmeta f) → 0 ≤ y < Fmeta.height (fmeta f) →
     canvas_px width (draw_frame width (set_blend true f) c)
       (x0_of (fmeta f) + x) (y0_of (fmeta f) + y)
     = canvas_px width (draw_frame width (set_blend false f) c)
         (x0_of (fmeta f) + x) (y0_of (fmeta f) + y)
     ∧ canvas_px width (draw_frame width (set_blend true f) c)
         (x0_of (fmeta f) + x) (y0_of (fmeta f) + y)
       = stored (patch_px f x y)
     ∧ (∀ sr sg sb,
          patch_px f x y = (Some sr, Some sg, Some sb, Some 255) →
          0 ≤ sr < 256 → 0 ≤ sg < 256 → 0 ≤ sb < 256 →
          canvas_px width (draw_frame width (set_blend true f) c)
            (x0_of (fmeta f) + x) (y0_of (fmeta f) + y)
          = (Some sr, Some sg, Some sb, Some 255))).
Proof.
  intros Ha.
  assert (∀ width height c,
     canvas_of width height c → frame_on_canvas width height f →
     0 ≤ x < Fmeta.width (fmeta f) → 0 ≤ y < Fmeta.height (fmeta f) →
     canvas_px width (draw_frame width (set_blend true f) c)
       (x0_of (fmeta f) + x) (y0_of (fmeta f) + y)
     = stored (patch_px f x y)) as Hpx.
  { intros width height c Hc Hon Hx Hy.
    etrans; [exact (draw_frame_inside width height (set_blend true f) c Hc Hon x y Hx Hy)|].
    unfold drawn, patch_px, peek4, blended. simpl. rewrite Ha. done. }
  split_and!.
  - intros c di. unfold blend_pixel, copy_pixel. rewrite Ha. done.
  - intros c di Hlo Hhi. rewrite blend_pixel_update4, peek4_update4 by done.
    unfold blended, patch_px, peek4. rewrite Ha. done.
  - intros width height c Hc Hon Hx Hy. split_and!.
    + rewrite (Hpx width height c Hc Hon Hx Hy). symmetry.
      etrans; [exact (draw_frame_inside width height (set_blend false f) c Hc Hon x y Hx Hy)|].
      done.
    + by apply (Hpx width height).
    + intros sr sg sb Hsrc Hr Hg Hb.
      rewrite (Hpx width height c Hc Hon Hx Hy), Hsrc. unfold stored.
      by rewrite !to_uint8_byte.
Qed.

Lemma C5_opaque_blend_is_overwrite_witness :
  buf_get (rgba frame_blue) (source 2 1 1 + 3) = Some 255 ∧
  canvas_of 4 4 sample_canvas ∧ frame_on_canvas 4 4 frame_blue ∧
  canvas_px 4 sample_canvas (2 + 1) (2 + 1)
  = (Some 255, Some 255, Some 255, Some 255) ∧
  canvas_px 4 (draw_frame 4 (set_blend true frame_blue) sample_canvas) (2 + 1) (2 + 1)
  = (Some 0, Some 0, Some 255, Some 255) ∧
  canvas_px 4 (draw_frame 4 (set_blend true frame_blue) sample_canvas) (2 + 1) (2 + 1)
  = canvas_px 4 (draw_frame 4 (set_blend false frame_blue) sample_canvas) (2 + 1) (2 + 1).
Proof.
  split; [done|]. split; [apply sample_canvas_ok|].
  split; [apply frame_blue_on_canvas|]. split; [reflexivity|].
  destruct (C5_opaque_blend_is_overwrite frame_blue 1 1 eq_refl) as (_ & _ & Hpx).
  destruct (Hpx 4 4 sample_canvas sample_canvas_ok frame_blue_on_canvas)
    as (Heq & _ & Hover); [simpl; lia..|].
  split; [|exact Heq].
  apply (Hover 0 0 255); [reflexivity|lia..].
Defined.

(** C6.  A frame with [blend = false] is composited by the copying body
    alone; on a canvas that contains the patch, every pixel of the patch
    region ends up with the four channels of its patch pixel, alpha
    included, whatever the canvas held. *)
Theorem C6_no_blend_copies f :
  Fmeta.blend (fmeta f) = false →
  (∀ width c,
     draw_frame width f c
     = patch_loop copy_pixel width (x0_of (fmeta f)) (y0_of (fmeta f))
         (Fmeta.width (fmeta f)) (Fmeta.height (fmeta f)) (rgba f) c)
  ∧ (∀ width height c x y,
     canvas_of width height c → frame_on_canvas width height f → patch_ok f →
     0 ≤ x < Fmeta.width (fmeta f) → 0 ≤ y < Fmeta.height (fmeta f) →
     canvas_px width (draw_frame width f c)
       (x0_of (fmeta f) + x) (y0_of (fmeta f) + y)
     = patch_px f x y).
Proof.
  intros Hb. split.
  - intros width c. unfold draw_frame, composite. by rewrite Hb.
  - intros width height c x y Hc Hon Hok Hx Hy.
    rewrite (draw_frame_inside width height f c Hc Hon x y Hx Hy), Hb.
    destruct (patch_px_bytes f x y Hok Hx Hy)
      as (r & g & b & a & -> & ? & ? & ? & ?).
    unfold drawn, stored. by rewrite !to_uint8_byte.
Qed.

Lemma C6_no_blend_copies_witness :
  Fmeta.blend (fmeta frame_red) = false ∧
  canvas_of 4 4 sample_canvas ∧ frame_on_canvas 4 4 frame_red ∧ patch_ok frame_red ∧
  canvas_px 4 (draw_frame 4 frame_red sample_canvas) (0 + 3) (0 + 2)
  = (Some 255, Some 0, Some 0, Some 255).
Proof.
  split; [done|]. split; [apply sample_canvas_ok|].
  split; [apply frame_red_on_canvas|]. split; [apply frame_red_ok|].
  destruct (C6_no_blend_copies frame_red eq_refl) as [_ Hpx].
  apply (Hpx 4 4 sample_canvas 3 2 sample_canvas_ok frame_red_on_canvas
           frame_red_ok); simpl; lia.
Defined.

(** C7.  A source pixel of alpha 0 under [blend = true]: the pixel body
    returns the canvas as it found it, and the canvas pixel is the same
    after the frame as before, in all four channels. *)
Theorem C7_transparent_source_keeps_pixel f x y :
  buf_get (rgba f) (source (Fmeta.width (fmeta f)) x y + 3) = Some 0 →
  (∀ c di, blend_pixel (rgba f) c (source (Fmeta.width (fmeta f)) x y) di = c)
  ∧ (∀ width height c,
     canvas_of width height c → frame_on_canvas width height f →
     Fmeta.blend (fmeta f) = true →
     0 ≤ x < Fmeta.width (fmeta f) → 0 ≤ y < Fmeta.height (fmeta f) →
     canvas_px width (draw_frame width f c)
       (x0_of (fmeta f) + x) (y0_of (fmeta f) + y)
     = canvas_px width c (x0_of (fmeta f) + x) (y0_of (fmeta f) + y)).
Proof.
  intros Ha. split.
  - intros c di. unfold blend_pixel. rewrite Ha. done.
  - intros width height c Hc Hon Hb Hx Hy.
    rewrite (draw_frame_inside width height f c Hc Hon x y Hx Hy), Hb.
    unfold drawn, patch_px, peek4, blended. rewrite Ha. done.
Qed.

Lemma C7_transparent_source_keeps_pixel_witness :
  buf_get (rgba frame_clear) (source 2 1 0 + 3) = Some 0 ∧
  canvas_of 4 4 sample_canvas ∧ frame_on_canvas 4 4 frame_clear ∧
  canvas_px 4 (draw_frame 4 frame_clear sample_canvas) (2 + 1) (2 + 0)
  = canvas_px 4 sample_canvas (2 + 1) (2 + 0).
Proof.
  split; [done|]. split; [apply sample_canvas_ok|].
  split; [apply frame_blue_on_canvas|].
  destruct (C7_transparent_source_keeps_pixel frame_clear 1 0 eq_refl) as [_ Hpx].
  apply (Hpx 4 4 sample_canvas sample_canvas_ok frame_blue_on_canvas eq_refl);
    simpl; lia.
Defined.

(** ** The semi-transparent branch *)

Lemma forall_range_spec f n d k :
  forall_range f n d = true → d ≤ k < d + Z.of_nat n → f k = true.
Proof.
  revert d. induction n as [|n IH]; intros d Hall Hk; [lia|].
  cbn [forall_range] in Hall. apply andb_prop in Hall as [Hd Hrest].
  destruct (decide (k = d)) as [->|Hne]; [done|].
  apply (IH (d + 1)); [done|lia].
Qed.

Lemma alpha_table_ok :
  forall_range (λ sa, forall_range (alpha_ok sa) 256 0) 254 1 = true.
Proof. vm_compute. reflexivity. Qed.

Lemma alpha_ok_all sa da : 0 < sa < 255 → 0 ≤ da ≤ 255 → alpha_ok sa da = true.
Proof.
  intros Hsa Hda.
  apply (forall_range_spec (alpha_ok sa) 256 0); [|lia].
  apply (forall_range_spec (λ sa, forall_range (alpha_ok sa) 256 0) 254 1);
    [apply alpha_table_ok|lia].
Qed.

Lemma to_int32_small x : 0 ≤ JS.truncate x < 2 ^ 31 → JS.to_int32 x = JS.truncate x.
Proof.
  intros Hx. unfold JS.to_int32. rewrite Z.mod_small by lia.
  destruct (Z.leb_spec (2 ^ 31) (JS.truncate x)); [lia|done].
Qed.

Lemma int_out_alpha_range sa da :
  0 < sa < 255 → 0 ≤ da ≤ 255 → sa ≤ int_out_alpha sa da ≤ 255.
Proof.
  intros Hsa Hda. unfold int_out_alpha.
  assert (0 ≤ da * (255 - sa)) by (apply Z.mul_nonneg_nonneg; lia).
  assert (da * (255 - sa) ≤ 255 * (255 - sa)) by (apply Z.mul_le_mono_nonneg_r; lia).
  rewrite Z.quot_div_nonneg by lia.
  assert (0 ≤ (da * (255 - sa)) `div` 255) by (apply Z.div_pos; lia).
  assert ((da * (255 - sa)) `div` 255 ≤ 255 - sa).
  { apply Z.div_le_upper_bound; lia. }
  lia.
Qed.

Lemma blend_pixel_semitransparent rgba c si di sa da :
  buf_get rgba (si + 3) = Some sa → 0 < sa < 255 →
  buf_get c (di + 3) = Some da → 0 ≤ da ≤ 255 →
  blend_pixel rgba c si di
  = store4 c di
      (Some (JS.to_int32 (out_channel (buf_get rgba (si + 0)) (Some sa)
                            (buf_get c (di + 0)) (Some da)
                            (out_alpha (Some sa) (Some da)))),
       Some (JS.to_int32 (out_channel (buf_get rgba (si + 1)) (Some sa)
                            (buf_get c (di + 1)) (Some da)
                            (out_alpha (Some sa) (Some da)))),
       Some (JS.to_int32 (out_channel (buf_get rgba (si + 2)) (Some sa)
                            (buf_get c (di + 2)) (Some da)
                            (out_alpha (Some sa) (Some da)))),
       Some (JS.to_int32 (out_alpha (Some sa) (Some da)))).
Proof.
  intros Hsa Hsa' Hda Hda'. unfold blend_pixel. rewrite Hsa, Hda.
  pose proof (alpha_ok_all sa da Hsa' Hda') as Hok. unfold alpha_ok in Hok.
  apply andb_prop in Hok as [Hok _]. apply andb_prop in Hok as [Hgt _].
  simpl JS.strict_eq.
  destruct (Z.eqb_spec sa 255); [lia|]. destruct (Z.eqb_spec sa 0); [lia|].
  by rewrite Hgt.
Qed.

Lemma peek4_Some_in_range (c : buf) di v0 v1 v2 v3 :
  peek4 c di = (Some v0, Some v1, Some v2, Some v3) →
  0 ≤ di ∧ di + 3 < Z.of_nat (length c).
Proof.
  unfold peek4. intros [= H0 _ _ H3].
  assert (is_Some (buf_get c (di + 0))) as Hlo by (by rewrite H0).
  assert (is_Some (buf_get c (di + 3))) as Hhi by (by rewrite H3).
  apply buf_get_in_range in Hlo, Hhi. lia.
Qed.

(** C1 (as stated, refuted).  Source (255,0,0,128) over destination
    (0,0,255,100): with every division truncating, the formula gives
    alpha 177 and red 184; the program stores red 183, because it divides
    in floating point and truncates the final quotient only. *)
Lemma C1_counterexample :
  blend_pixel [255; 0; 0; 128] [0; 0; 255; 100] 0 0 = [183; 0; 71; 177]
  ∧ int_out_alpha 128 100 = 177
  ∧ int_out_channel 255 128 0 100 = 184
  ∧ buf_get (blend_pixel [255; 0; 0; 128] [0; 0; 255; 100] 0 0) 0
    ≠ Some (int_out_channel 255 128 0 100).
Proof. split_and!; [reflexivity..|]. vm_compute. discriminate. Qed.

(** C1 (amended).  For a source pixel with alpha strictly between 0 and
    255 over a canvas pixel, the stored alpha is
    [sa + da * (255 - sa) / 255] with truncating integer division, and
    each stored colour channel is the number
    [(sc * sa + dc * da * (255 - sa) / 255) / outA] computed in binary64
    arithmetic, with [outA] and the inner quotient left as they are, then
    truncated toward zero and stored as a byte.  Source (255,0,0,128)
    over (0,0,255,255) gives alpha 255 and red 128. *)
Theorem C1_semitransparent_blend rgba c si di sr sg sb sa dr dg db da :
  peek4 rgba si = (Some sr, Some sg, Some sb, Some sa) →
  peek4 c di = (Some dr, Some dg, Some db, Some da) →
  0 < sa < 255 → 0 ≤ da ≤ 255 →
  peek4 (blend_pixel rgba c si di) di
  = (Some (JS.to_int32 (out_channel (Some sr) (Some sa) (Some dr) (Some da)
                          (out_alpha (Some sa) (Some da))) `mod` 256),
     Some (JS.to_int32 (out_channel (Some sg) (Some sa) (Some dg) (Some da)
                          (out_alpha (Some sa) (Some da))) `mod` 256),
     Some (JS.to_int32 (out_channel (Some sb) (Some sa) (Some db) (Some da)
                          (out_alpha (Some sa) (Some da))) `mod` 256),
     Some (int_out_alpha sa da))
  ∧ blend_pixel [255; 0; 0; 128] [0; 0; 255; 255] 0 0 = [128; 0; 127; 255].
Proof.
  intros Hsrc Hdst Hsa Hda. split; [|reflexivity].
  destruct (peek4_Some_in_range _ _ _ _ _ _ Hdst) as [Hlo Hhi].
  unfold peek4 in Hsrc, Hdst.
  injection Hsrc as Hsr Hsg Hsb Hsa'. injection Hdst as Hdr Hdg Hdb Hda'.
  rewrite (blend_pixel_semitransparent rgba c si di sa da) by done.
  rewrite Hsr, Hsg, Hsb, Hdr, Hdg, Hdb.
  unfold peek4.
  rewrite buf_get_store4_0, buf_get_store4_1, buf_get_store4_2, buf_get_store4_3.
  rewrite Hdr, Hdg, Hdb, Hda'. cbn [fmap option_fmap option_map JS.to_uint8].
  pose proof (alpha_ok_all sa da Hsa Hda) as Hok. unfold alpha_ok in Hok.
  apply andb_prop in Hok as [_ Heq]. apply Z.eqb_eq in Heq.
  pose proof (int_out_alpha_range sa da Hsa Hda) as Hr.
  rewrite (to_int32_small (out_alpha (Some sa) (Some da))) by (rewrite Heq; lia).
  rewrite Heq, (Z.mod_small (int_out_alpha sa da)) by lia.
  done.
Qed.

Lemma C1_semitransparent_blend_witness :
  0 < 128 < 255 ∧ 0 ≤ 255 ≤ 255 ∧
  peek4 (blend_pixel [255; 0; 0; 128] [0; 0; 255; 255] 0 0) 0
  = (Some 128, Some 0, Some 127, Some 255).
Proof.
  split_and!; [lia..|].
  destruct (C1_semitransparent_blend [255; 0; 0; 128] [0; 0; 255; 255] 0 0
              255 0 0 128 0 0 255 255 eq_refl eq_refl) as [H _]; [lia..|].
  rewrite H. reflexivity.
Defined.

(** C10.  For a source alpha strictly between 0 and 255 and a
    destination alpha in [0, 255], [outA] is at least [sa], hence
    positive: the guard [outA > 0] holds and the semi-transparent branch
    always performs its four stores. *)
Theorem C10_semitransparent_always_writes rgba c si di sa da :
  buf_get rgba (si + 3) = Some sa → 0 < sa < 255 →
  buf_get c (di + 3) = Some da → 0 ≤ da ≤ 255 →
  JS.gt (out_alpha (Some sa) (Some da)) (JS.of_Z 0) = true
  ∧ PrimFloat.leb (JS.of_Z sa) (out_alpha (Some sa) (Some da)) = true
  ∧ 0 < sa ≤ JS.truncate (out_alpha (Some sa) (Some da))
  ∧ blend_pixel rgba c si di
    = store4 c di
        (Some (JS.to_int32 (out_channel (buf_get rgba (si + 0)) (Some sa)
                              (buf_get c (di + 0)) (Some da)
                              (out_alpha (Some sa) (Some da)))),
         Some (JS.to_int32 (out_channel (buf_get rgba (si + 1)) (Some sa)
                              (buf_get c (di + 1)) (Some da)
                              (out_alpha (Some sa) (Some da)))),
         Some (JS.to_int32 (out_channel (buf_get rgba (si + 2)) (Some sa)
                              (buf_get c (di + 2)) (Some da)
                              (out_alpha (Some sa) (Some da)))),
         Some (JS.to_int32 (out_alpha (Some sa) (Some da)))).
Proof.
  intros Hsa Hsa' Hda Hda'.
  pose proof (alpha_ok_all sa da Hsa' Hda') as Hok. unfold alpha_ok in Hok.
  apply andb_prop in Hok as [Hok Heq]. apply andb_prop in Hok as [Hgt Hle].
  apply Z.eqb_eq in Heq.
  pose proof (int_out_alpha_range sa da Hsa' Hda') as Hr.
  split_and!; [done|done|lia|lia|].
  by apply blend_pixel_semitransparent.
Qed.

Lemma C10_semitransparent_always_writes_witness :
  0 < 128 < 255 ∧ 0 ≤ 100 ≤ 255 ∧
  JS.gt (out_alpha (Some 128) (Some 100)) (JS.of_Z 0) = true ∧
  blend_pixel [255; 0; 0; 128] [0; 0; 255; 100] 0 0 = [183; 0; 71; 177].
Proof.
  split_and!; [lia..| |].
  - destruct (C10_semitransparent_always_writes [255; 0; 0; 128] [0; 0; 255; 100]
                0 0 128 100 eq_refl) as (H & _); [lia|done|lia|exact H].
  - destruct (C10_semitransparent_always_writes [255; 0; 0; 128] [0; 0; 255; 100]
                0 0 128 100 eq_refl) as (_ & _ & _ & H); [lia|done|lia|].
    rewrite H. reflexivity.
Defined.

(** ** The frame rate *)

Lemma or_default_effective d : JS.or_default d 100 = effective_delay d.
Proof.
  unfold JS.or_default, effective_delay. destruct d as [z|]; [|done].
  destruct (Z.eqb_spec z 0); by case_decide.
Qed.

Lemma rate_table_ok : forall_range rate_ok (Z.to_nat 10000) 1 = true.
Proof. vm_compute. reflexivity. Qed.

Lemma rate_ok_all d : 1 ≤ d ≤ 10000 → rate_ok d = true.
Proof.
  intros Hd. apply (forall_range_spec rate_ok (Z.to_nat 10000) 1);
    [apply rate_table_ok|lia].
Qed.

Lemma convert_fps_first img f rest :
  Img.hasAnim img = true → Img.frames img = f :: rest →
  convert_fps img
  = JS.math_round
      (JS.of_Z 1000 / JS.of_Z (effective_delay (Fmeta.delay (fmeta f))))%float.
Proof.
  intros Ha Hf. unfold convert_fps. rewrite Hf, Ha. simpl.
  by rewrite or_default_effective.
Qed.

(** C9.  The frame rate of an animated image is [Math.round(1000 / d)]
    where [d] is the delay of the first frame, or 100 when that delay is 0
    or missing.  Delays 100, 0 and missing give 10; delay 40 gives 25; for
    every delay up to 10000 ms the rate is the integer nearest to
    [1000 / d].  Two animated images with the same first frame get the
    same rate, whatever their other frames. *)
Theorem C9_frame_rate img f rest :
  Img.hasAnim img = true → Img.frames img = f :: rest →
  convert_fps img
  = JS.math_round
      (JS.of_Z 1000 / JS.of_Z (effective_delay (Fmeta.delay (fmeta f))))%float
  ∧ (Fmeta.delay (fmeta f) = Some 100 ∨ Fmeta.delay (fmeta f) = Some 0
     ∨ Fmeta.delay (fmeta f) = None → convert_fps img = 10%float)
  ∧ (Fmeta.delay (fmeta f) = Some 40 → convert_fps img = 25%float)
  ∧ (1 ≤ effective_delay (Fmeta.delay (fmeta f)) ≤ 10000 →
     JS.truncate (convert_fps img)
     = nearest_rate (effective_delay (Fmeta.delay (fmeta f))))
  ∧ (∀ img' rest', Img.hasAnim img' = true → Img.frames img' = f :: rest' →
     convert_fps img' = convert_fps img).
Proof.
  intros Ha Hf. pose proof (convert_fps_first img f rest Ha Hf) as Hfps.
  split_and!.
  - done.
  - rewrite Hfps. by intros [-> | [-> | ->]].
  - rewrite Hfps. by intros ->.
  - intros Hd. rewrite Hfps. apply Z.eqb_eq. by apply rate_ok_all.
  - intros img' rest' Ha' Hf'. by rewrite Hfps, (convert_fps_first img' f rest').
Qed.

Lemma C9_frame_rate_witness :
  Img.hasAnim sample_img = true ∧ convert_fps sample_img = 25%float.
Proof.
  split; [done|].
  destruct (C9_frame_rate sample_img frame_red [frame_blue; frame_green]
              eq_refl eq_refl) as (_ & _ & H & _).
  by apply H.
Defined.

(** ** Snapshot names *)

Lemma zeros_snoc n s : zeros (S n) +:+ s = zeros n +:+ String "0"%char s.
Proof.
  induction n as [|n IH]; [done|].
  change (zeros (S (S n)) +:+ s) with (String "0"%char (zeros (S n) +:+ s)).
  rewrite IH. done.
Qed.

Lemma digits_acc_zero n s : digits_acc n 0 s = zeros n +:+ s.
Proof.
  revert s. induction n as [|n IH]; intros s; [done|].
  cbn [digits_acc]. change (0 `div` 10)%N with 0%N.
  change (pretty_N_char (0 `mod` 10)%N) with "0"%char.
  by rewrite IH, zeros_snoc.
Qed.

Lemma digits_acc_app n x s t : digits_acc n x s +:+ t = digits_acc n x (s +:+ t).
Proof. revert x s. induction n as [|n IH]; intros x s; [done|]. simpl. by rewrite IH. Qed.

Lemma digits_acc_length n x s :
  String.length (digits_acc n x s) = (n + String.length s)%nat.
Proof.
  revert x s. induction n as [|n IH]; intros x s; [done|].
  cbn [digits_acc]. rewrite IH. simpl. lia.
Qed.

Lemma pretty_N_go_pad n x s :
  (x < 10 ^ N.of_nat n)%N →
  padStart0 (n + String.length s) (pretty_N_go x s) = digits_acc n x s.
Proof.
  revert x s. induction n as [|n IH]; intros x s Hx.
  - assert (x = 0%N) as -> by (simpl in Hx; lia).
    rewrite pretty_N_go_0. unfold padStart0.
    by replace (0 + String.length s - String.length s)%nat with 0%nat by lia.
  - destruct (decide (x = 0%N)) as [->|Hne].
    + rewrite pretty_N_go_0, digits_acc_zero. unfold padStart0.
      by replace (S n + String.length s - String.length s)%nat with (S n) by lia.
    + rewrite pretty_N_go_step by lia. cbn [digits_acc].
      rewrite <-IH.
      * simpl String.length. by replace (S n + String.length s)%nat
          with (n + S (String.length s))%nat by lia.
      * rewrite Nat2N.inj_succ, N.pow_succ_r' in Hx.
        apply N.Div0.div_lt_upper_bound. lia.
Qed.

Lemma frameIndex_five_digits i : 0 ≤ i < 100000 → frameIndex i = five_digits i.
Proof.
  intros Hi. unfold frameIndex, five_digits. destruct i as [|p|p]; [done| |lia].
  change (pretty (Zpos p)) with (pretty (Npos p)).
  unfold pretty, pretty_N. rewrite decide_False by done.
  apply (pretty_N_go_pad 5 (Npos p) EmptyString). simpl. lia.
Qed.

Lemma digit_compare a b :
  (a < 10)%N → (b < 10)%N →
  Ascii.compare (pretty_N_char a) (pretty_N_char b) = (a ?= b)%N.
Proof.
  intros Ha Hb.
  assert (a = 0 ∨ a = 1 ∨ a = 2 ∨ a = 3 ∨ a = 4 ∨ a = 5 ∨ a = 6 ∨ a = 7
          ∨ a = 8 ∨ a = 9)%N as Ha' by lia.
  assert (b = 0 ∨ b = 1 ∨ b = 2 ∨ b = 3 ∨ b = 4 ∨ b = 5 ∨ b = 6 ∨ b = 7
          ∨ b = 8 ∨ b = 9)%N as Hb' by lia.
  destruct Ha' as [->|[->|[->|[->|[->|[->|[->|[->|[->| ->]]]]]]]]];
    destruct Hb' as [->|[->|[->|[->|[->|[->|[->|[->|[->| ->]]]]]]]]];
    reflexivity.
Qed.

Lemma digits_acc_compare n x y s t :
  (x < 10 ^ N.of_nat n)%N → (y < 10 ^ N.of_nat n)%N →
  String.compare (digits_acc n x s) (digits_acc n y t)
  = match (x ?= y)%N with
    | Eq => String.compare s t
    | o => o
    end.
Proof.
  revert x y s t. induction n as [|n IH]; intros x y s t Hx Hy.
  - assert (x = 0%N) as -> by (simpl in Hx; lia).
    assert (y = 0%N) as -> by (simpl in Hy; lia). done.
  - rewrite Nat2N.inj_succ, N.pow_succ_r' in Hx, Hy.
    cbn [digits_acc]. rewrite IH by (apply N.Div0.div_lt_upper_bound; lia).
    cbn [String.compare].
    rewrite digit_compare by (apply N.mod_lt; done).
    pose proof (N.div_mod x 10 ltac:(done)) as Ex.
    pose proof (N.div_mod y 10 ltac:(done)) as Ey.
    pose proof (N.mod_lt x 10 ltac:(done)) as Mx.
    pose proof (N.mod_lt y 10 ltac:(done)) as My.
    clear IH Hx Hy.
    generalize dependent (x `div` 10)%N. generalize dependent (x `mod` 10)%N.
    generalize dependent (y `div` 10)%N. generalize dependent (y `mod` 10)%N.
    intros ry My qy Ey rx Mx qx Ex.
    destruct (N.compare_spec qx qy) as [Hq|Hq|Hq].
    + destruct (N.compare_spec rx ry) as [Hr|Hr|Hr].
      * replace y with x by lia. by rewrite N.compare_refl.
      * assert (x < y)%N as ->%N.compare_lt_iff by lia. done.
      * assert (y < x)%N as ->%N.compare_gt_iff by lia. done.
    + assert (x < y)%N as ->%N.compare_lt_iff by lia. done.
    + assert (y < x)%N as ->%N.compare_gt_iff by lia. done.
Qed.

Lemma compare_prefix p s t :
  String.compare (p +:+ s) (p +:+ t) = String.compare s t.
Proof.
  induction p as [|a p IH]; [done|].
  change (String a p +:+ s) with (String a (p +:+ s)).
  change (String a p +:+ t) with (String a (p +:+ t)).
  cbn [String.compare]. unfold Ascii.compare. by rewrite N.compare_refl.
Qed.

Lemma frame_name_five_digits i :
  0 ≤ i < 100000 → frame_name i = "frame_" +:+ five_digits i +:+ ".png".
Proof. intros Hi. unfold frame_name. by rewrite frameIndex_five_digits. Qed.

Lemma frame_name_lt i j :
  0 ≤ i → i < j → j < 100000 → String.compare (frame_name i) (frame_name j) = Lt.
Proof.
  intros Hi Hij Hj. rewrite !frame_name_five_digits by lia.
  unfold five_digits. rewrite !digits_acc_app, compare_prefix.
  rewrite digits_acc_compare by (simpl; lia).
  assert (Z.to_N i < Z.to_N j)%N as ->%N.compare_lt_iff by lia. done.
Qed.

(** ** The loop over the frames *)

Lemma frame_loop_length width bg i fs c :
  length (frame_loop width bg i fs c) = length fs.
Proof.
  revert i c. induction fs as [|f fs IH]; intros i c; [done|].
  simpl. by rewrite IH.
Qed.

Lemma frame_loop_lookup width bg fs i c n f :
  fs !! n = Some f →
  frame_loop width bg i fs c !! n
  = Some (frame_name (i + Z.of_nat n),
          Png (draw_frame width f (canvas_before width bg fs c n))).
Proof.
  revert i c n. induction fs as [|f0 fs IH]; intros i c n Hn; [done|].
  destruct n as [|n].
  - injection Hn as ->. simpl. by rewrite Z.add_0_r.
  - simpl in Hn. cbn [frame_loop frame_step]. rewrite lookup_cons.
    rewrite (IH (i + 1) _ n Hn).
    replace (i + 1 + Z.of_nat n) with (i + Z.of_nat (S n)) by lia. done.
Qed.

Lemma convert_frames_animated img :
  Img.hasAnim img = true →
  convert_frames img
  = frame_loop (Img.width img) (background img) 0 (Img.frames img)
      (initial_canvas (Img.width img) (Img.height img) (background img)).
Proof. intros Ha. unfold convert_frames. by rewrite Ha. Qed.

Lemma snapshots_are_canvases img i name data :
  Img.hasAnim img = true → 0 ≤ Img.width img → 0 ≤ Img.height img →
  convert_frames img !! i = Some (name, Png data) →
  canvas_of (Img.width img) (Img.height img) data.
Proof.
  intros Ha Hw Hh Hi. rewrite convert_frames_animated in Hi by done.
  destruct (Img.frames img !! i) as [f|] eqn:Hf.
  - rewrite (frame_loop_lookup _ _ _ _ _ _ f Hf) in Hi. injection Hi as _ <-.
    apply draw_frame_canvas, canvas_before_ok. by apply initial_canvas_ok.
  - apply lookup_ge_None in Hf. rewrite <-(frame_loop_length (Img.width img)
      (background img) 0 _ (initial_canvas (Img.width img) (Img.height img)
      (background img))) in Hf.
    apply lookup_ge_None in Hf. by rewrite Hf in Hi.
Qed.

(** The sample animation, frame by frame: all red; the blue square at
    true offset (2,2); the square cleared to white by the disposal, then
    green at alpha 128 blended over it. *)
Lemma sample_run :
  convert sample_img
  = ([("frame_00000.png"%string, Png (solid [255; 0; 0; 255] 16));
      ("frame_00001.png"%string,
       Png (solid [255; 0; 0; 255] 10 ++ solid [0; 0; 255; 255] 2
            ++ solid [255; 0; 0; 255] 2 ++ solid [0; 0; 255; 255] 2));
      ("frame_00002.png"%string,
       Png (solid [255; 0; 0; 255] 10 ++ solid [127; 255; 127; 255] 2
            ++ solid [255; 0; 0; 255] 2 ++ solid [127; 255; 127; 255] 2))],
     25%float).
Proof. reflexivity. Qed.

Lemma long_img_lookup n :
  (n < Z.to_nat 100001)%nat → Img.frames long_img !! n = Some frame_empty.
Proof.
  intros Hn. unfold long_img. cbn [Img.frames]. by apply lookup_replicate_2.
Qed.

(** C8 (as stated, refuted).  An animation of 100001 frames: the snapshot
    of frame 100000 is named with six digits, and its name sorts before
    that of frame 99999. *)
Lemma C8_counterexample :
  Img.hasAnim long_img = true
  ∧ length (Img.frames long_img) = Z.to_nat 100001
  ∧ fst <$> convert_frames long_img !! Z.to_nat 99999 = Some "frame_99999.png"%string
  ∧ fst <$> convert_frames long_img !! Z.to_nat 100000 = Some "frame_100000.png"%string
  ∧ String.length (frameIndex 100000) = 6%nat
  ∧ String.compare "frame_99999.png" "frame_100000.png" = Gt.
Proof.
  split_and!; [done|apply length_replicate| | |reflexivity|reflexivity].
  - rewrite convert_frames_animated by done.
    rewrite (frame_loop_lookup _ _ _ _ _ _ frame_empty)
      by (apply long_img_lookup; lia).
    rewrite Z2Nat.id by lia. reflexivity.
  - rewrite convert_frames_animated by done.
    rewrite (frame_loop_lookup _ _ _ _ _ _ frame_empty)
      by (apply long_img_lookup; lia).
    rewrite Z2Nat.id by lia. reflexivity.
Qed.

(** C8 (amended).  For an animated input of N frames, whatever N:
    exactly N snapshots are written, and snapshot [i] is the canvas after
    frames [0 .. i-1] were composited and disposed in order and frame [i]
    was composited, under the name the loop gives index [i].  For every
    index below 100000 that name is [frame_] followed by the five-digit
    zero-padded decimal numeral of the index, and among these names the
    order character by character is the frame order. *)
Theorem C8_snapshots_in_order img :
  Img.hasAnim img = true →
  length (convert_frames img) = length (Img.frames img)
  ∧ (∀ i f, Img.frames img !! i = Some f →
       convert_frames img !! i
       = Some (frame_name (Z.of_nat i),
               Png (draw_frame (Img.width img) f
                      (canvas_before (Img.width img) (background img)
                         (Img.frames img)
                         (initial_canvas (Img.width img) (Img.height img)
                            (background img)) i))))
  ∧ (∀ i, 0 ≤ i < 100000 →
       frame_name i = "frame_" +:+ five_digits i +:+ ".png"
       ∧ String.length (five_digits i) = 5%nat)
  ∧ (∀ i j, 0 ≤ i → i < j → j < 100000 →
       String.compare (frame_name i) (frame_name j) = Lt)
  ∧ frame_name 0 = "frame_00000.png"%string
  ∧ frame_name 1 = "frame_00001.png"%string.
Proof.
  intros Ha. rewrite convert_frames_animated by done.
  split_and!; [apply frame_loop_length| | | |reflexivity|reflexivity].
  - intros i f Hi.
    by rewrite (frame_loop_lookup _ _ _ _ _ _ f Hi), Z.add_0_l.
  - intros i Hi. split.
    + by apply frame_name_five_digits.
    + unfold five_digits. by rewrite digits_acc_length.
  - intros i j Hi Hij Hj. by apply frame_name_lt.
Qed.

Lemma C8_snapshots_in_order_witness :
  Img.hasAnim sample_img = true
  ∧ length (convert_frames sample_img) = 3%nat
  ∧ fst <$> convert_frames sample_img !! 2%nat = Some "frame_00002.png"%string
  ∧ String.compare (frame_name 1) (frame_name 2) = Lt.
Proof.
  destruct (C8_snapshots_in_order sample_img eq_refl)
    as (Hlen & Hsnap & _ & Hlt & _).
  split; [done|]. split; [exact Hlen|]. split.
  - rewrite (Hsnap 2%nat frame_green eq_refl). reflexivity.
  - apply Hlt; lia.
Defined.


(** * Further properties of the worker *)

(** ** Loop invariants and loops that change nothing *)

Lemma for_loop_invariant {A} (P : A → Prop) n (body : Z → A → A) init :
  (∀ i a, P a → P (body i a)) → P init → P (for_loop n body init).
Proof.
  intros Hstep. unfold for_loop. generalize (seqZ 0 n). intros l. revert init.
  induction l as [|i l IH]; intros init Hinit; [done|].
  simpl. by apply IH, Hstep.
Qed.

Lemma for_loop_fixed {A} n (body : Z → A → A) (a : A) :
  (∀ i, 0 ≤ i < n → body i a = a) → for_loop n body a = a.
Proof.
  intros Hfix. unfold for_loop.
  assert (∀ i, i ∈ seqZ 0 n → body i a = a) as Hl.
  { intros i Hi. apply Hfix. apply elem_of_seqZ in Hi. lia. }
  revert Hl. generalize (seqZ 0 n). intros l Hl.
  induction l as [|i l IH]; [done|].
  simpl. rewrite Hl by left. apply IH. intros j Hj. apply Hl. by right.
Qed.

Lemma patch_loop_invariant (P : buf → Prop) pixel width x0 y0 fw fh rgba c :
  (∀ c' si p, P c' → P (pixel rgba c' si (p * 4))) →
  P c → P (patch_loop pixel width x0 y0 fw fh rgba c).
Proof.
  intros Hstep Hc. unfold patch_loop.
  apply for_loop_invariant; [|done]. intros y c1 Hc1.
  apply for_loop_invariant; [|done]. intros x c2 Hc2. by apply Hstep.
Qed.

Lemma patch_loop_fixed pixel width x0 y0 fw fh rgba c :
  (∀ x y, 0 ≤ x < fw → 0 ≤ y < fh →
     pixel rgba c (source fw x y) (target width x0 y0 x y) = c) →
  patch_loop pixel width x0 y0 fw fh rgba c = c.
Proof.
  intros Hfix. unfold patch_loop.
  apply for_loop_fixed. intros y Hy. apply for_loop_fixed. intros x Hx.
  by apply Hfix.
Qed.

Lemma buf_set_out_of_range (c : buf) i v :
  Z.of_nat (length c) ≤ i → buf_set c i v = c.
Proof.
  intros Hi. unfold buf_set. destruct (Z.leb_spec 0 i); [|done].
  apply list_insert_ge. lia.
Qed.

Lemma update4_out_of_range F di c :
  Z.of_nat (length c) ≤ di → update4 F di c = c.
Proof.
  intros Hdi. unfold update4.
  destruct (F (peek4 c di)) as [[[[v0 v1] v2] v3]|]; [|done].
  unfold store4.
  rewrite (buf_set_out_of_range c) by lia.
  rewrite (buf_set_out_of_range c) by lia.
  rewrite (buf_set_out_of_range c) by lia.
  by rewrite (buf_set_out_of_range c) by lia.
Qed.

Lemma pixel_body_out_of_range pixel rgba si di c :
  pixel_body pixel → Z.of_nat (length c) ≤ di → pixel rgba c si di = c.
Proof.
  intros Hb Hdi. destruct (Hb rgba si di) as [F ->].
  by apply update4_out_of_range.
Qed.

Lemma to_uint8_range v : 0 ≤ JS.to_uint8 v < 256.
Proof. destruct v as [z|]; simpl; [apply Z.mod_pos_bound|]; lia. Qed.

Lemma buf_set_bytes c i v : bytes c → bytes (buf_set c i v).
Proof.
  intros Hc. unfold buf_set. destruct (0 <=? i); [|done].
  destruct (decide (Z.to_nat i < length c)%nat) as [Hlt|Hge].
  - apply Forall_insert; [done|apply to_uint8_range].
  - rewrite list_insert_ge by lia. done.
Qed.

Lemma update4_bytes F di c : bytes c → bytes (update4 F di c).
Proof.
  intros Hc. unfold update4.
  destruct (F (peek4 c di)) as [[[[v0 v1] v2] v3]|]; [|done].
  unfold store4. by do 4 apply buf_set_bytes.
Qed.

Lemma patch_loop_bytes pixel width x0 y0 fw fh rgba c :
  pixel_body pixel → bytes c → bytes (patch_loop pixel width x0 y0 fw fh rgba c).
Proof.
  intros Hb. apply patch_loop_invariant. intros c' si p Hc'.
  destruct (Hb rgba si (p * 4)) as [F ->]. by apply update4_bytes.
Qed.

Lemma draw_frame_bytes width f c : bytes c → bytes (draw_frame width f c).
Proof.
  intros Hc. unfold draw_frame, composite. destruct (negb _).
  - by apply patch_loop_bytes; [apply copy_pixel_body|].
  - by apply patch_loop_bytes; [apply blend_pixel_body|].
Qed.

Lemma dispose_frame_bytes width bg f c : bytes c → bytes (dispose_frame width bg f c).
Proof.
  intros Hc. unfold dispose_frame. destruct (Fmeta.dispose _); [|done].
  rewrite clear_region_patch_loop. by apply patch_loop_bytes; [apply fill_pixel_body|].
Qed.

Lemma initial_canvas_bytes width height bg : bytes (initial_canvas width height bg).
Proof.
  rewrite initial_canvas_fill. apply for_loop_invariant.
  - intros i a Ha. by apply update4_bytes.
  - unfold buf_alloc, bytes. apply Forall_replicate. lia.
Qed.

Lemma canvas_before_bytes width bg fs c i :
  bytes c → bytes (canvas_before width bg fs c i).
Proof.
  unfold canvas_before. generalize (take i fs). intros l. revert c.
  induction l as [|f l IH]; intros c Hc; [done|].
  simpl. apply IH. unfold after_frame. by apply dispose_frame_bytes, draw_frame_bytes.
Qed.

(** ** The canvas before the first frame *)

(** X1.  The canvas the loop starts from has [width * height * 4] bytes
    and every pixel of it holds the background colour as the buffer
    stores it: opaque white when the container gives no colour, the
    four bytes of [bgColor] otherwise. *)
Theorem initial_canvas_is_background img :
  0 ≤ Img.width img → 0 ≤ Img.height img →
  Z.of_nat (length (initial_canvas (Img.width img) (Img.height img) (background img)))
  = Img.width img * Img.height img * 4
  ∧ (∀ X Y, 0 ≤ X < Img.width img → 0 ≤ Y < Img.height img →
       canvas_px (Img.width img)
         (initial_canvas (Img.width img) (Img.height img) (background img)) X Y
       = stored (bg_quad (background img)))
  ∧ (Img.bgColor img = None →
       stored (bg_quad (background img))
       = (Some 255, Some 255, Some 255, Some 255))
  ∧ (∀ r g b a, Img.bgColor img = Some [r; g; b; a] → bytes [r; g; b; a] →
       stored (bg_quad (background img)) = (Some r, Some g, Some b, Some a)).
Proof.
  intros Hw Hh. split_and!.
  - by apply initial_canvas_ok.
  - intros X Y HX HY. by apply initial_canvas_px.
  - intros Hbg. unfold background. by rewrite Hbg.
  - intros r g b a Hbg Hb. unfold background. rewrite Hbg.
    unfold bg_quad, stored. cbn [lookup list_lookup].
    rewrite !to_uint8_byte; [done|..].
    + by apply (bytes_lookup [r; g; b; a] 3 a).
    + by apply (bytes_lookup [r; g; b; a] 2 b).
    + by apply (bytes_lookup [r; g; b; a] 1 g).
    + by apply (bytes_lookup [r; g; b; a] 0 r).
Qed.

Lemma initial_canvas_is_background_witness :
  0 ≤ Img.width sample_img ∧ 0 ≤ Img.height sample_img ∧
  canvas_px 4 (initial_canvas 4 4 (background sample_img)) 3 1
  = (Some 255, Some 255, Some 255, Some 255).
Proof.
  assert (0 ≤ Img.width sample_img) as Hw by (simpl; lia).
  assert (0 ≤ Img.height sample_img) as Hh by (simpl; lia).
  split; [done|]. split; [done|].
  destruct (initial_canvas_is_background sample_img Hw Hh) as (_ & Hpx & Hwhite & _).
  rewrite <-(Hwhite eq_refl). apply Hpx; simpl; lia.
Defined.

(** ** What every snapshot is *)

(** X2.  Whatever the frames hold (offsets off the canvas, patch buffers
    too short, values that are not bytes), every snapshot of an animated
    image is a buffer of exactly [width * height * 4] values, each of
    them a byte. *)
Theorem snapshots_are_byte_canvases img i name data :
  Img.hasAnim img = true → 0 ≤ Img.width img → 0 ≤ Img.height img →
  convert_frames img !! i = Some (name, Png data) →
  Z.of_nat (length data) = Img.width img * Img.height img * 4 ∧ bytes data.
Proof.
  intros Ha Hw Hh Hi. split.
  - by destruct (snapshots_are_canvases img i name data Ha Hw Hh Hi) as (_ & _ & ?).
  - rewrite convert_frames_animated in Hi by done.
    destruct (Img.frames img !! i) as [f|] eqn:Hf.
    + rewrite (frame_loop_lookup _ _ _ _ _ _ f Hf) in Hi. injection Hi as _ <-.
      apply draw_frame_bytes, canvas_before_bytes, initial_canvas_bytes.
    + apply lookup_ge_None in Hf. rewrite <-(frame_loop_length (Img.width img)
        (background img) 0 _ (initial_canvas (Img.width img) (Img.height img)
        (background img))) in Hf.
      apply lookup_ge_None in Hf. by rewrite Hf in Hi.
Qed.

Lemma snapshots_are_byte_canvases_witness :
  Img.hasAnim sample_img = true ∧
  ∃ data, convert_frames sample_img !! 1%nat = Some ("frame_00001.png"%string, Png data)
          ∧ Z.of_nat (length data) = 64 ∧ bytes data.
Proof.
  split; [done|]. eexists. split; [reflexivity|].
  apply (snapshots_are_byte_canvases sample_img 1 "frame_00001.png"); simpl; (lia || done).
Defined.

(** ** Patches that leave the canvas alone *)

(** X3.  A patch of width or height zero (or less) draws nothing and its
    disposal clears nothing: the snapshot of such a frame is the canvas
    it found, and the next frame starts from the same canvas. *)
Theorem empty_patch_changes_nothing width bg f c :
  Fmeta.width (fmeta f) ≤ 0 ∨ Fmeta.height (fmeta f) ≤ 0 →
  draw_frame width f c = c
  ∧ dispose_frame width bg f c = c
  ∧ (∀ i rest,
       frame_loop width bg i (f :: rest) c
       = (frame_name i, Png c) :: frame_loop width bg (i + 1) rest c).
Proof.
  intros Hempty.
  assert (draw_frame width f c = c) as Hdraw.
  { unfold draw_frame, composite. destruct (negb _);
      apply patch_loop_fixed; intros x y Hx Hy; lia. }
  assert (dispose_frame width bg f c = c) as Hdisp.
  { unfold dispose_frame. destruct (Fmeta.dispose _); [|done].
    rewrite clear_region_patch_loop. apply patch_loop_fixed. intros x y Hx Hy. lia. }
  split_and!; [done..|].
  intros i rest. cbn [frame_loop frame_step]. by rewrite Hdraw, Hdisp.
Qed.

Lemma empty_patch_changes_nothing_witness :
  Fmeta.width (fmeta frame_thin) ≤ 0 ∧
  draw_frame 4 frame_thin sample_canvas = sample_canvas.
Proof.
  assert (Fmeta.width (fmeta frame_thin) ≤ 0) as Hw by (simpl; lia).
  split; [done|].
  by destruct (empty_patch_changes_nothing 4 white frame_thin sample_canvas
                 (or_introl Hw)) as (? & _).
Defined.

(** X4.  A patch whose first row lies below the last row of the canvas
    ([height <= y0], the column offset not negative) changes nothing:
    every store it attempts falls past the end of the buffer and is
    dropped, in compositing and in disposal alike. *)
Theorem patch_below_canvas_changes_nothing width height bg f c :
  canvas_of width height c →
  0 ≤ x0_of (fmeta f) → height ≤ y0_of (fmeta f) →
  draw_frame width f c = c ∧ dispose_frame width bg f c = c.
Proof.
  intros (Hw & Hh & Hlen) Hx0 Hy0.
  assert (∀ x y, 0 ≤ x → 0 ≤ y →
    Z.of_nat (length c) ≤ target width (x0_of (fmeta f)) (y0_of (fmeta f)) x y)
    as Hout.
  { intros x y Hx Hy. rewrite Hlen. unfold target.
    assert (height * width ≤ (y0_of (fmeta f) + y) * width)
      by (apply Z.mul_le_mono_nonneg_r; lia).
    lia. }
  split.
  - unfold draw_frame, composite. destruct (negb _);
      apply patch_loop_fixed; intros x y Hx Hy.
    + apply pixel_body_out_of_range; [apply copy_pixel_body|apply Hout; lia].
    + apply pixel_body_out_of_range; [apply blend_pixel_body|apply Hout; lia].
  - unfold dispose_frame. destruct (Fmeta.dispose _); [|done].
    rewrite clear_region_patch_loop. apply patch_loop_fixed. intros x y Hx Hy.
    apply pixel_body_out_of_range; [apply fill_pixel_body|apply Hout; lia].
Qed.

Lemma patch_below_canvas_changes_nothing_witness :
  canvas_of 4 4 sample_canvas ∧ 0 ≤ x0_of (fmeta frame_below) ∧
  4 ≤ y0_of (fmeta frame_below) ∧
  draw_frame 4 frame_below sample_canvas = sample_canvas.
Proof.
  assert (0 ≤ x0_of (fmeta frame_below)) as Hx by (by vm_compute).
  assert (4 ≤ y0_of (fmeta frame_below)) as Hy by (by vm_compute).
  split; [apply sample_canvas_ok|]. split; [done|]. split; [done|].
  by destruct (patch_below_canvas_changes_nothing 4 4 white frame_below sample_canvas
                 sample_canvas_ok Hx Hy) as [? _].
Defined.

(** X5.  A blended patch whose pixels all have alpha 0 leaves the whole
    canvas as it was, wherever the patch is placed, on the canvas or
    off it. *)
Theorem transparent_patch_changes_nothing width f c :
  Fmeta.blend (fmeta f) = true →
  (∀ x y, 0 ≤ x < Fmeta.width (fmeta f) → 0 ≤ y < Fmeta.height (fmeta f) →
     buf_get (rgba f) (source (Fmeta.width (fmeta f)) x y + 3) = Some 0) →
  draw_frame width f c = c.
Proof.
  intros Hb Hclear. unfold draw_frame, composite. rewrite Hb. simpl.
  apply patch_loop_fixed. intros x y Hx Hy.
  unfold blend_pixel. by rewrite (Hclear x y Hx Hy).
Qed.

Lemma frame_clear_transparent x y :
  0 ≤ x < Fmeta.width (fmeta frame_clear) → 0 ≤ y < Fmeta.height (fmeta frame_clear) →
  buf_get (rgba frame_clear) (source (Fmeta.width (fmeta frame_clear)) x y + 3) = Some 0.
Proof.
  simpl. intros Hx Hy.
  assert (x = 0 ∨ x = 1) as [-> | ->] by lia;
    assert (y = 0 ∨ y = 1) as [-> | ->] by lia; reflexivity.
Qed.

Lemma transparent_patch_changes_nothing_witness :
  Fmeta.blend (fmeta frame_clear) = true ∧
  draw_frame 4 frame_clear sample_canvas = sample_canvas.
Proof.
  split; [done|].
  apply (transparent_patch_changes_nothing 4 frame_clear sample_canvas eq_refl
           frame_clear_transparent).
Defined.

(** ** Canvases compared pixel by pixel *)

Lemma byte_index_decompose width height i :
  0 ≤ width → 0 ≤ height → 0 ≤ i < width * height * 4 →
  ∃ X Y k, 0 ≤ X < width ∧ 0 ≤ Y < height ∧ 0 ≤ k < 4
           ∧ i = pixel_index width X Y + k.
Proof.
  intros Hw Hh Hi.
  assert (0 < width) as Hw'.
  { destruct (decide (width = 0)) as [->|]; lia. }
  pose proof (Z.div_mod i 4 ltac:(lia)) as Ei.
  pose proof (Z.mod_pos_bound i 4 ltac:(lia)) as Mi.
  pose proof (Z.div_mod (i `div` 4) width ltac:(lia)) as Eq.
  pose proof (Z.mod_pos_bound (i `div` 4) width Hw') as Mq.
  assert (0 ≤ i `div` 4) as Hq0 by (apply Z.div_pos; lia).
  assert (i `div` 4 < width * height) as Hq1
    by (apply Z.div_lt_upper_bound; lia).
  assert (0 ≤ (i `div` 4) `div` width) as HY0 by (apply Z.div_pos; lia).
  assert ((i `div` 4) `div` width < height) as HY1
    by (apply Z.div_lt_upper_bound; lia).
  exists ((i `div` 4) `mod` width), ((i `div` 4) `div` width), (i `mod` 4).
  unfold pixel_index. split_and!; lia.
Qed.

Lemma canvas_ext width height c c' :
  canvas_of width height c → canvas_of width height c' →
  (∀ X Y, 0 ≤ X < width → 0 ≤ Y < height →
     canvas_px width c X Y = canvas_px width c' X Y) →
  c = c'.
Proof.
  intros (Hw & Hh & Hlen) (_ & _ & Hlen') Hpx. apply buf_ext. intros i.
  destruct (decide (0 ≤ i < width * height * 4)) as [Hi|Hi].
  - destruct (byte_index_decompose width height i Hw Hh Hi)
      as (X & Y & k & HX & HY & Hk & ->).
    specialize (Hpx X Y HX HY). unfold canvas_px, peek4 in Hpx.
    injection Hpx as H0 H1 H2 H3.
    assert (k = 0 ∨ k = 1 ∨ k = 2 ∨ k = 3) as [-> | [-> | [-> | ->] ] ] by lia;
      done.
  - assert (buf_get c i = None) as ->.
    { destruct (buf_get c i) eqn:E; [|done].
      assert (is_Some (buf_get c i)) as Hs by (by rewrite E).
      apply buf_get_in_range in Hs. lia. }
    destruct (buf_get c' i) eqn:E; [|done].
    assert (is_Some (buf_get c' i)) as Hs by (by rewrite E).
    apply buf_get_in_range in Hs. lia.
Qed.

(** ** Frames that hide what came before *)

(** X6.  A frame with [blend = false] whose patch covers the whole canvas
    from offset (0,0) makes its snapshot equal to its patch buffer, byte
    for byte, whatever the canvas held before. *)
Theorem full_overwrite_snapshot_is_patch width height f c :
  canvas_of width height c → patch_ok f →
  Fmeta.blend (fmeta f) = false →
  x0_of (fmeta f) = 0 → y0_of (fmeta f) = 0 →
  Fmeta.width (fmeta f) = width → Fmeta.height (fmeta f) = height →
  draw_frame width f c = rgba f.
Proof.
  intros Hc Hok Hb Hx0 Hy0 Hfw Hfh.
  assert (frame_on_canvas width height f) as Hon.
  { unfold frame_on_canvas, on_canvas. lia. }
  apply (canvas_ext width height).
  - by apply draw_frame_canvas.
  - destruct Hc as (? & ? & _), Hok as [_ Hlen]. split_and!; [done..|].
    by rewrite Hlen, Hfw, Hfh.
  - intros X Y HX HY.
    pose proof (draw_frame_inside width height f c Hc Hon X Y) as Hin.
    rewrite Hx0, Hy0, Hb, !Z.add_0_l in Hin. rewrite Hin by lia.
    destruct (patch_px_bytes f X Y Hok) as (r & g & b & a & Hpx & ? & ? & ? & ?);
      [lia..|].
    rewrite Hpx. unfold drawn, stored. rewrite !to_uint8_byte by done.
    rewrite <-Hpx. unfold patch_px, canvas_px, source, pixel_index. by rewrite Hfw.
Qed.

Lemma full_overwrite_snapshot_is_patch_witness :
  canvas_of 4 4 sample_canvas ∧ patch_ok frame_red ∧
  draw_frame 4 frame_red sample_canvas = solid [255; 0; 0; 255] 16.
Proof.
  split; [apply sample_canvas_ok|]. split; [apply frame_red_ok|].
  apply (full_overwrite_snapshot_is_patch 4 4 frame_red sample_canvas
           sample_canvas_ok frame_red_ok); reflexivity.
Defined.

(** X7.  Compositing a disposed frame over the background-filled canvas
    and disposing it gives the background-filled canvas back.  So in an
    animation whose frames all dispose and all lie on the canvas, every
    snapshot is its own frame drawn over the plain background: no frame
    shows through in a later one. *)
Theorem disposed_frames_are_independent img i f :
  Img.hasAnim img = true → 0 ≤ Img.width img → 0 ≤ Img.height img →
  Forall (λ f, Fmeta.dispose (fmeta f) = true
               ∧ frame_on_canvas (Img.width img) (Img.height img) f)
    (Img.frames img) →
  Img.frames img !! i = Some f →
  after_frame (Img.width img) (background img)
    (initial_canvas (Img.width img) (Img.height img) (background img)) f
  = initial_canvas (Img.width img) (Img.height img) (background img)
  ∧ convert_frames img !! i
    = Some (frame_name (Z.of_nat i),
            Png (draw_frame (Img.width img) f
                   (initial_canvas (Img.width img) (Img.height img)
                      (background img)))).
Proof.
  intros Ha Hw Hh Hall Hi.
  set (W := Img.width img) in *. set (H := Img.height img) in *.
  set (bg := background img) in *.
  pose proof (initial_canvas_ok W H bg Hw Hh) as Hc0.
  assert (∀ g, Fmeta.dispose (fmeta g) = true → frame_on_canvas W H g →
            after_frame W bg (initial_canvas W H bg) g = initial_canvas W H bg)
    as Hback.
  { intros g Hd Hon. apply (canvas_ext W H); [by apply after_frame_canvas|done|].
    intros X Y HX HY. unfold after_frame.
    pose proof (draw_frame_canvas W H g _ Hc0) as Hc1.
    destruct (decide ((x0_of (fmeta g) ≤ X < x0_of (fmeta g) + Fmeta.width (fmeta g))
                      ∧ (y0_of (fmeta g) ≤ Y < y0_of (fmeta g) + Fmeta.height (fmeta g))))
      as [Hin|Hout].
    - rewrite (dispose_frame_inside W H g _ Hc1 Hon) by done.
      by rewrite initial_canvas_px.
    - rewrite (dispose_frame_outside W H g _ Hon) by done.
      by rewrite (draw_frame_outside W H g _ Hon). }
  split.
  - apply Hback; by apply (Forall_lookup_1 _ _ _ _ Hall Hi).
  - rewrite convert_frames_animated by done.
    rewrite (frame_loop_lookup _ _ _ _ _ _ f Hi), Z.add_0_l.
    do 3 f_equal. fold W H bg. unfold canvas_before.
    assert (Forall (λ f, Fmeta.dispose (fmeta f) = true ∧ frame_on_canvas W H f)
              (take i (Img.frames img))) as Hall' by (by apply Forall_take).
    revert Hall'. generalize (take i (Img.frames img)). intros l Hl.
    induction l as [|g l IH]; [done|].
    apply Forall_cons in Hl as [[Hd Hon] Hl]. simpl. rewrite Hback by done.
    by apply IH.
Qed.

Lemma flip_img_frames :
  Forall (λ f, Fmeta.dispose (fmeta f) = true
               ∧ frame_on_canvas (Img.width flip_img) (Img.height flip_img) f)
    (Img.frames flip_img).
Proof. repeat constructor; by vm_compute. Qed.

Lemma disposed_frames_are_independent_witness :
  Img.hasAnim flip_img = true ∧
  convert_frames flip_img !! 1%nat
  = Some ("frame_00001.png"%string,
          Png (draw_frame 4 frame_blue (initial_canvas 4 4 white))).
Proof.
  split; [done|].
  destruct (disposed_frames_are_independent flip_img 1 frame_blue eq_refl)
    as [_ H]; [simpl; lia|simpl; lia|apply flip_img_frames|done|exact H].
Defined.

(** ** The loop over a longer animation *)

Lemma frame_loop_app width bg i fs1 fs2 c :
  frame_loop width bg i (fs1 ++ fs2) c
  = frame_loop width bg i fs1 c
    ++ frame_loop width bg (i + Z.of_nat (length fs1)) fs2
         (foldl (after_frame width bg) c fs1).
Proof.
  revert i c. induction fs1 as [|f fs1 IH]; intros i c.
  - simpl. by rewrite Z.add_0_r.
  - cbn [app frame_loop frame_step]. rewrite IH. cbn [foldl length].
    unfold after_frame at 2.
    by replace (i + 1 + Z.of_nat (length fs1)) with (i + Z.of_nat (S (length fs1)))
      by lia.
Qed.

(** X8.  The snapshots of the first [k] frames of an animation do not
    depend on the frames that follow: they are the snapshots of the
    animation cut after [k] frames.  More generally the files written for
    [fs1 ++ fs2] are those written for [fs1], then those written for [fs2]
    from the canvas and the index [fs1] left. *)
Theorem earlier_snapshots_ignore_later_frames img k :
  Img.hasAnim img = true →
  take k (convert_frames img) = convert_frames (first_frames k img)
  ∧ (∀ fs1 fs2, Img.frames img = fs1 ++ fs2 →
       convert_frames img
       = frame_loop (Img.width img) (background img) 0 fs1
           (initial_canvas (Img.width img) (Img.height img) (background img))
         ++ frame_loop (Img.width img) (background img) (Z.of_nat (length fs1)) fs2
              (canvas_before (Img.width img) (background img) (Img.frames img)
                 (initial_canvas (Img.width img) (Img.height img) (background img))
                 (length fs1))).
Proof.
  intros Ha.
  assert (∀ fs1 fs2, Img.frames img = fs1 ++ fs2 →
       convert_frames img
       = frame_loop (Img.width img) (background img) 0 fs1
           (initial_canvas (Img.width img) (Img.height img) (background img))
         ++ frame_loop (Img.width img) (background img) (Z.of_nat (length fs1)) fs2
              (canvas_before (Img.width img) (background img) (Img.frames img)
                 (initial_canvas (Img.width img) (Img.height img) (background img))
                 (length fs1))) as Happ.
  { intros fs1 fs2 Hfs. rewrite convert_frames_animated by done.
    unfold canvas_before. rewrite Hfs, frame_loop_app, Z.add_0_l.
    by rewrite take_app_length. }
  split; [|done].
  rewrite (Happ (take k (Img.frames img)) (drop k (Img.frames img)))
    by (by rewrite take_drop).
  rewrite (convert_frames_animated (first_frames k img)) by done.
  cbn [first_frames Img.width Img.height Img.frames].
  change (background (first_frames k img)) with (background img).
  destruct (decide (k ≤ length (Img.frames img))%nat) as [Hk|Hk].
  - rewrite take_app_le by (rewrite frame_loop_length, length_take; lia).
    apply take_ge. rewrite frame_loop_length, length_take. lia.
  - rewrite drop_ge by lia. cbn [frame_loop]. rewrite app_nil_r.
    apply take_ge. rewrite frame_loop_length, length_take. lia.
Qed.

Lemma earlier_snapshots_ignore_later_frames_witness :
  Img.hasAnim sample_img = true ∧
  take 2 (convert_frames sample_img)
  = convert_frames (Img.Build true 4 4 None [frame_red; frame_blue]).
Proof.
  split; [done|].
  by destruct (earlier_snapshots_ignore_later_frames sample_img 2 eq_refl) as [-> _].
Defined.

(** ** Opaque canvases *)

Lemma buf_get_bytes (b : buf) i v : bytes b → buf_get b i = Some v → 0 ≤ v < 256.
Proof.
  intros Hb Hv. unfold buf_get in Hv. destruct (0 <=? i); [|done].
  by eapply bytes_lookup.
Qed.

Lemma store4_opaque c p v0 v1 v2 v3 :
  alpha_opaque c →
  JS.to_uint8 v3 = 255 ∨ buf_get c (p * 4 + 3) = None →
  alpha_opaque (store4 c (p * 4) (v0, v1, v2, v3)).
Proof.
  intros Hc Hv q v Hq. destruct (decide (q = p)) as [->|Hne].
  - rewrite buf_get_store4_3 in Hq. destruct Hv as [Hv|Hv].
    + destruct (buf_get c (p * 4 + 3)); simpl in Hq; [|done].
      injection Hq as <-. done.
    + by rewrite Hv in Hq.
  - rewrite buf_get_store4_out in Hq by (unfold px_range; lia). by eapply Hc.
Qed.

Lemma int_out_alpha_opaque sa : int_out_alpha sa 255 = 255.
Proof.
  unfold int_out_alpha. rewrite (Z.mul_comm 255), Z.quot_mul by lia. lia.
Qed.

Lemma blend_pixel_opaque rgba c si p :
  bytes rgba → alpha_opaque c → alpha_opaque (blend_pixel rgba c si (p * 4)).
Proof.
  intros Hb Hc. unfold blend_pixel.
  destruct (JS.strict_eq (buf_get rgba (si + 3)) 255) eqn:E255.
  { apply (store4_opaque c p). - done. - by left. }
  destruct (JS.strict_eq (buf_get rgba (si + 3)) 0) eqn:E0; [done|].
  destruct (buf_get c (p * 4 + 3)) as [da|] eqn:Hda.
  - assert (da = 255) as -> by (by eapply Hc).
    destruct (buf_get rgba (si + 3)) as [sa|] eqn:Hsa; [|done].
    pose proof (buf_get_bytes rgba _ _ Hb Hsa) as Hr.
    simpl in E255, E0. apply Z.eqb_neq in E255, E0.
    pose proof (alpha_ok_all sa 255 ltac:(lia) ltac:(lia)) as Hok.
    unfold alpha_ok in Hok.
    apply andb_prop in Hok as [Hok Heq]. apply andb_prop in Hok as [Hgt _].
    apply Z.eqb_eq in Heq. rewrite int_out_alpha_opaque in Heq.
    rewrite Hgt. apply (store4_opaque c p); [done|]. left.
    rewrite to_int32_small by (rewrite Heq; lia). by rewrite Heq.
  - destruct (JS.gt _ _); [|done].
    apply (store4_opaque c p); [done|]. by right.
Qed.

Lemma fill_pixel_opaque bg rgba c si p :
  JS.to_uint8 (bg !! 3%nat) = 255 →
  alpha_opaque c → alpha_opaque (fill_pixel bg rgba c si (p * 4)).
Proof. intros Hbg Hc. apply (store4_opaque c p); [done|by left]. Qed.

Lemma initial_canvas_opaque width height bg :
  0 ≤ width → 0 ≤ height → JS.to_uint8 (bg !! 3%nat) = 255 →
  alpha_opaque (initial_canvas width height bg).
Proof.
  intros Hw Hh Hbg p v Hv.
  pose proof (initial_canvas_ok width height bg Hw Hh) as (_ & _ & Hlen).
  assert (is_Some (buf_get (initial_canvas width height bg) (p * 4 + 3))) as Hs
    by (by rewrite Hv).
  apply buf_get_in_range in Hs. rewrite Hlen in Hs.
  destruct (byte_index_decompose width height (p * 4 + 3) Hw Hh Hs)
    as (X & Y & k & HX & HY & Hk & Hi).
  assert (k = 3) as -> by (unfold pixel_index in Hi; lia).
  rewrite Hi in Hv.
  pose proof (initial_canvas_px width height bg X Y HX HY) as Hpx.
  unfold canvas_px, peek4, stored, bg_quad in Hpx. injection Hpx as _ _ _ H3.
  rewrite H3 in Hv. injection Hv as <-. done.
Qed.

(** X9.  When the background is opaque and every frame is blended from
    a patch of bytes, every alpha byte of every snapshot is 255: blending
    over an opaque canvas never makes a pixel transparent. *)
Theorem blended_snapshots_are_opaque img i name data :
  Img.hasAnim img = true → 0 ≤ Img.width img → 0 ≤ Img.height img →
  JS.to_uint8 (background img !! 3%nat) = 255 →
  Forall (λ f, Fmeta.blend (fmeta f) = true ∧ bytes (rgba f)) (Img.frames img) →
  convert_frames img !! i = Some (name, Png data) →
  alpha_opaque data.
Proof.
  intros Ha Hw Hh Hbg Hall Hi.
  assert (∀ f c, Fmeta.blend (fmeta f) = true → bytes (rgba f) → alpha_opaque c →
            alpha_opaque (draw_frame (Img.width img) f c)) as Hdraw.
  { intros f c Hb Hby Hc. unfold draw_frame, composite. rewrite Hb. simpl.
    apply patch_loop_invariant; [|done]. intros c' si p. by apply blend_pixel_opaque. }
  assert (∀ f c, alpha_opaque c →
            alpha_opaque (dispose_frame (Img.width img) (background img) f c))
    as Hdisp.
  { intros f c Hc. unfold dispose_frame. destruct (Fmeta.dispose _); [|done].
    rewrite clear_region_patch_loop.
    apply patch_loop_invariant; [|done]. intros c' si p. by apply fill_pixel_opaque. }
  rewrite convert_frames_animated in Hi by done.
  destruct (Img.frames img !! i) as [f|] eqn:Hf.
  - rewrite (frame_loop_lookup _ _ _ _ _ _ f Hf) in Hi. injection Hi as _ <-.
    destruct (Forall_lookup_1 _ _ _ _ Hall Hf) as [Hb Hby].
    apply Hdraw; [done..|]. unfold canvas_before.
    assert (Forall (λ f, Fmeta.blend (fmeta f) = true ∧ bytes (rgba f))
              (take i (Img.frames img))) as Hall' by (by apply Forall_take).
    revert Hall'. generalize (take i (Img.frames img)). intros l.
    generalize (initial_canvas_opaque (Img.width img) (Img.height img)
                  (background img) Hw Hh Hbg).
    generalize (initial_canvas (Img.width img) (Img.height img) (background img)).
    induction l as [|g l IH]; intros c Hc Hl; [done|].
    apply Forall_cons in Hl as [[Hgb Hgby] Hl]. simpl. apply IH; [|done].
    unfold after_frame. by apply Hdisp, Hdraw.
  - apply lookup_ge_None in Hf. rewrite <-(frame_loop_length (Img.width img)
      (background img) 0 _ (initial_canvas (Img.width img) (Img.height img)
      (background img))) in Hf.
    apply lookup_ge_None in Hf. by rewrite Hf in Hi.
Qed.

Lemma flip_img_blended :
  Forall (λ f, Fmeta.blend (fmeta f) = true ∧ bytes (rgba f)) (Img.frames flip_img).
Proof.
  assert (bytes (rgba frame_blue)) as Hb.
  { unfold bytes. vm_compute. repeat constructor; done. }
  repeat constructor; done.
Qed.

Lemma blended_snapshots_are_opaque_witness :
  Img.hasAnim flip_img = true ∧
  JS.to_uint8 (background flip_img !! 3%nat) = 255 ∧
  ∃ data, convert_frames flip_img !! 1%nat = Some ("frame_00001.png"%string, Png data)
          ∧ alpha_opaque data.
Proof.
  split; [done|]. split; [done|]. eexists. split; [reflexivity|].
  apply (blended_snapshots_are_opaque flip_img 1 "frame_00001.png");
    [done|simpl; lia|simpl; lia|done|apply flip_img_blended|reflexivity].
Defined.

(** ** File names never collide *)

Lemma pretty_N_go_length_le x s :
  (String.length s ≤ String.length (pretty_N_go x s))%nat.
Proof.
  revert s. induction (N.lt_wf_0 x) as [x _ IH]; intros s.
  destruct (decide (x = 0%N)) as [->|Hne]; [by rewrite pretty_N_go_0|].
  rewrite pretty_N_go_step by lia.
  etrans; [|apply IH; apply N.div_lt; lia]. simpl. lia.
Qed.

Lemma pretty_N_go_length_ge n x s :
  (10 ^ N.of_nat n ≤ x)%N →
  (n + 1 + String.length s ≤ String.length (pretty_N_go x s))%nat.
Proof.
  revert x s. induction n as [|n IH]; intros x s Hx.
  - rewrite pretty_N_go_step by (simpl in Hx; lia).
    etrans; [|apply pretty_N_go_length_le]. simpl. lia.
  - rewrite Nat2N.inj_succ, N.pow_succ_r' in Hx.
    rewrite pretty_N_go_step by lia.
    etrans; [|apply IH].
    + simpl. lia.
    + apply N.div_le_lower_bound; lia.
Qed.

Lemma frameIndex_long i : 100000 ≤ i → frameIndex i = pretty i.
Proof.
  intros Hi. unfold frameIndex, padStart0. destruct i as [|p|p]; [lia| |lia].
  assert (6 ≤ String.length (pretty (Zpos p)))%nat as Hlen.
  { change (pretty (Zpos p)) with (pretty (Npos p)).
    unfold pretty, pretty_N. rewrite decide_False by done.
    pose proof (pretty_N_go_length_ge 5 (Npos p) EmptyString) as H.
    simpl in H. apply H. lia. }
  by replace (5 - String.length (pretty (Zpos p)))%nat with 0%nat by lia.
Qed.

Lemma string_length_app s t :
  String.length (s +:+ t) = (String.length s + String.length t)%nat.
Proof.
  induction s as [|a s IH]; [done|].
  change (String a s +:+ t) with (String a (s +:+ t)). simpl. by rewrite IH.
Qed.

Lemma string_app_inj_r s s' t : s +:+ t = s' +:+ t → s = s'.
Proof.
  intros Heq.
  assert (String.length s = String.length s') as Hlen.
  { apply (f_equal String.length) in Heq. rewrite !string_length_app in Heq. lia. }
  revert s' Heq Hlen. induction s as [|a s IH]; intros [|a' s'] Heq Hlen;
    try done.
  change (String a (s +:+ t) = String a' (s' +:+ t)) in Heq.
  injection Heq as -> Heq. f_equal. apply IH; [done|]. simpl in Hlen. lia.
Qed.

Lemma string_compare_refl s : String.compare s s = Eq.
Proof.
  induction s as [|a s IH]; [done|].
  cbn [String.compare]. unfold Ascii.compare. by rewrite N.compare_refl.
Qed.

Lemma frameIndex_inj i j : 0 ≤ i → 0 ≤ j → frameIndex i = frameIndex j → i = j.
Proof.
  intros Hi Hj Heq.
  destruct (decide (i < 100000)) as [Hi5|Hi6], (decide (j < 100000)) as [Hj5|Hj6].
  - rewrite !frameIndex_five_digits in Heq by lia. unfold five_digits in Heq.
    pose proof (digits_acc_compare 5 (Z.to_N i) (Z.to_N j) EmptyString EmptyString)
      as Hcmp.
    rewrite Heq, string_compare_refl in Hcmp.
    destruct (N.compare_spec (Z.to_N i) (Z.to_N j)) as [?|?|?];
      [lia|discriminate Hcmp; simpl; lia..].
  - apply (f_equal String.length) in Heq.
    rewrite frameIndex_five_digits, (frameIndex_long j) in Heq by lia.
    unfold five_digits in Heq. rewrite digits_acc_length in Heq.
    destruct j as [|p|p]; [lia| |lia].
    change (pretty (Zpos p)) with (pretty (Npos p)) in Heq.
    unfold pretty, pretty_N in Heq. rewrite decide_False in Heq by done.
    pose proof (pretty_N_go_length_ge 5 (Npos p) EmptyString) as H.
    simpl in H, Heq. lia.
  - apply (f_equal String.length) in Heq.
    rewrite (frameIndex_five_digits j), (frameIndex_long i) in Heq by lia.
    unfold five_digits in Heq. rewrite digits_acc_length in Heq.
    destruct i as [|p|p]; [lia| |lia].
    change (pretty (Zpos p)) with (pretty (Npos p)) in Heq.
    unfold pretty, pretty_N in Heq. rewrite decide_False in Heq by done.
    pose proof (pretty_N_go_length_ge 5 (Npos p) EmptyString) as H.
    simpl in H, Heq. lia.
  - rewrite !frameIndex_long in Heq by lia. by apply (inj pretty).
Qed.

(** X10.  Two different frame indices never get the same file name, for
    any number of frames: no snapshot of a run overwrites another.  From
    index 100000 on the name carries the plain decimal numeral, without
    padding. *)
Theorem frame_names_are_distinct i j :
  0 ≤ i → 0 ≤ j →
  (frame_name i = frame_name j → i = j)
  ∧ (100000 ≤ i → frame_name i = "frame_" +:+ pretty i +:+ ".png").
Proof.
  intros Hi Hj. split.
  - unfold frame_name. intros Heq. apply (inj (String.app "frame_")) in Heq.
    apply string_app_inj_r in Heq. by apply frameIndex_inj.
  - intros Hlong. unfold frame_name. by rewrite frameIndex_long.
Qed.

Lemma frame_names_are_distinct_witness :
  0 ≤ 99999 ∧ 0 ≤ 100000 ∧ frame_name 99999 ≠ frame_name 100000
  ∧ frame_name 123456 = "frame_123456.png"%string.
Proof.
  split; [lia|]. split; [lia|]. split.
  - intros Heq.
    destruct (frame_names_are_distinct 99999 100000) as [Hinj _]; [lia..|].
    apply Hinj in Heq. lia.
  - destruct (frame_names_are_distinct 123456 0) as [_ Hlong]; [lia..|].
    rewrite Hlong by lia. reflexivity.
Defined.

(** ** Frame rates over the delays *)

Lemma rate_exact_table : forall_range rate_exact (Z.to_nat 10000) 1 = true.
Proof. vm_compute. reflexivity. Qed.

Lemma math_round_rate d :
  1 ≤ d ≤ 10000 →
  JS.math_round (JS.of_Z 1000 / JS.of_Z d)%float = JS.of_Z (nearest_rate d).
Proof.
  intros Hd.
  assert (rate_exact d = true) as Hok.
  { apply (forall_range_spec rate_exact (Z.to_nat 10000) 1);
      [apply rate_exact_table|lia]. }
  unfold rate_exact in Hok. unfold JS.math_round.
  destruct (Prim2SF (JS.of_Z 1000 / JS.of_Z d)%float) as [| | |s m [|p|p]];
    try discriminate Hok.
  apply andb_prop in Hok as [Hs Hr]. destruct s; [discriminate Hs|].
  apply Z.eqb_eq in Hr. rewrite Hr. by rewrite andb_false_r.
Qed.

Lemma nearest_rate_range d :
  1 ≤ d →
  (d ≤ 2000 → 1 ≤ nearest_rate d ≤ 1000) ∧ (2000 < d → nearest_rate d = 0).
Proof.
  intros Hd. unfold nearest_rate. split.
  - intros Hle. split.
    + apply Z.div_le_lower_bound; lia.
    + apply Z.lt_succ_r, Z.div_lt_upper_bound; lia.
  - intros Hgt. apply Z.div_small. lia.
Qed.

(** X11.  For a first-frame delay [d] from 1 to 10000 ms the frame rate
    is the number [(2000 + d) / (2 d)], the integer nearest to [1000 / d]:
    between 1 and 1000 for delays up to 2000 ms, and 0 for every longer
    delay. *)
Theorem frame_rate_range img f rest :
  Img.hasAnim img = true → Img.frames img = f :: rest →
  1 ≤ effective_delay (Fmeta.delay (fmeta f)) ≤ 10000 →
  convert_fps img = JS.of_Z (nearest_rate (effective_delay (Fmeta.delay (fmeta f))))
  ∧ (effective_delay (Fmeta.delay (fmeta f)) ≤ 2000 →
     1 ≤ nearest_rate (effective_delay (Fmeta.delay (fmeta f))) ≤ 1000)
  ∧ (2000 < effective_delay (Fmeta.delay (fmeta f)) →
     convert_fps img = 0%float).
Proof.
  intros Ha Hfs Hd.
  assert (convert_fps img
          = JS.of_Z (nearest_rate (effective_delay (Fmeta.delay (fmeta f)))))
    as Hfps.
  { rewrite (convert_fps_first img f rest Ha Hfs). by apply math_round_rate. }
  destruct (nearest_rate_range (effective_delay (Fmeta.delay (fmeta f))))
    as [Hlow Hhigh]; [lia|].
  split; [done|]. split; [done|].
  intros Hlong. rewrite Hfps, Hhigh by done. reflexivity.
Qed.

Lemma frame_rate_range_witness :
  Img.hasAnim slow_img = true ∧ convert_fps slow_img = 0%float.
Proof.
  split; [done|].
  destruct (frame_rate_range slow_img
              (Frame (Fmeta.Build (Some 0) (Some 0) 4 4 false false (Some 3000))
                     (solid [255; 0; 0; 255] 16)) [] eq_refl eq_refl)
    as (_ & _ & H); [simpl; lia|].
  apply H. simpl. lia.
Defined.

(** * Further properties of the server's helpers *)

(** ** The sanitizer *)

Lemma string_app_assoc (s t u : string) : (s +:+ t) +:+ u = s +:+ (t +:+ u).
Proof.
  induction s as [|a s IH]; [done|].
  change (String a ((s +:+ t) +:+ u) = String a (s +:+ (t +:+ u))). by rewrite IH.
Qed.

Lemma replace_all_app c r s t :
  replace_all c r (s +:+ t) = replace_all c r s +:+ replace_all c r t.
Proof.
  induction s as [|a s IH]; [done|].
  change (String a s +:+ t) with (String a (s +:+ t)). cbn [replace_all].
  rewrite IH. destruct (Ascii.eqb a c); [by rewrite string_app_assoc|done].
Qed.

Lemma has_char_app a s t : has_char a (s +:+ t) = has_char a s || has_char a t.
Proof.
  induction s as [|b s IH]; [done|].
  change (String b s +:+ t) with (String b (s +:+ t)). cbn [has_char].
  by rewrite IH, orb_assoc.
Qed.

Lemma escape_char_chain a :
  replace_all "/" "&#x2F;"
    (replace_all "'" "&#x27;"
       (replace_all "034" "&quot;"
          (replace_all ">" "&gt;"
             (replace_all "<" "&lt;"
                (replace_all "&" "&amp;" (String a EmptyString))))))
  = escape_char a.
Proof.
  destruct a as [[] [] [] [] [] [] [] []]; reflexivity.
Qed.

Lemma sanitize_chain_escape s :
  replace_all "/" "&#x2F;"
    (replace_all "'" "&#x27;"
       (replace_all "034" "&quot;"
          (replace_all ">" "&gt;"
             (replace_all "<" "&lt;" (replace_all "&" "&amp;" s)))))
  = escape s.
Proof.
  induction s as [|a s IH]; [done|].
  change (String a s) with (String a EmptyString +:+ s).
  rewrite !replace_all_app, IH, escape_char_chain. done.
Qed.

Lemma escape_char_plain a : is_special a = false → escape_char a = String a EmptyString.
Proof.
  unfold is_special, escape_char. intros H.
  repeat (apply orb_false_elim in H as [H ?]).
  by repeat match goal with Heq : Ascii.eqb _ _ = false |- _ => rewrite Heq; clear Heq end.
Qed.

Lemma escape_char_safe a :
  has_char "<" (escape_char a) = false ∧ has_char ">" (escape_char a) = false
  ∧ has_char "034" (escape_char a) = false ∧ has_char "'" (escape_char a) = false
  ∧ has_char "/" (escape_char a) = false.
Proof. destruct a as [[] [] [] [] [] [] [] []]; by vm_compute. Qed.

Lemma escape_safe s :
  has_char "<" (escape s) = false ∧ has_char ">" (escape s) = false
  ∧ has_char "034" (escape s) = false ∧ has_char "'" (escape s) = false
  ∧ has_char "/" (escape s) = false.
Proof.
  induction s as [|a s (H1 & H2 & H3 & H4 & H5)]; [done|].
  destruct (escape_char_safe a) as (E1 & E2 & E3 & E4 & E5).
  cbn [escape]. rewrite !has_char_app, H1, H2, H3, H4, H5, E1, E2, E3, E4, E5.
  done.
Qed.

(** X12.  Whatever the message, missing and empty ones included, the
    sanitized text contains none of the characters [<], [>], the double
    quote, the single quote and [/]. *)
Theorem sanitized_text_has_no_markup message :
  has_char "<" (sanitizeErrorMessage message) = false
  ∧ has_char ">" (sanitizeErrorMessage message) = false
  ∧ has_char "034" (sanitizeErrorMessage message) = false
  ∧ has_char "'" (sanitizeErrorMessage message) = false
  ∧ has_char "/" (sanitizeErrorMessage message) = false.
Proof.
  unfold sanitizeErrorMessage. destruct message as [s|]; [|done].
  destruct (String.eqb s EmptyString); [done|].
  cbv zeta. rewrite sanitize_chain_escape. apply escape_safe.
Qed.

Lemma sanitize_escape s :
  s ≠ EmptyString → sanitizeErrorMessage (Some s) = escape s.
Proof.
  intros Hne. unfold sanitizeErrorMessage.
  destruct (String.eqb_spec s EmptyString) as [->|_]; [done|].
  cbv zeta. apply sanitize_chain_escape.
Qed.

(** X13.  On a message that is not empty, the six replacements made one
    after the other amount to a single pass that escapes each character
    of the message on its own: no character of an entity written by an
    earlier replacement is escaped again by a later one.  A message
    without any of the six characters comes out unchanged. *)
Theorem sanitize_is_one_pass s :
  s ≠ EmptyString →
  sanitizeErrorMessage (Some s) = escape s
  ∧ ((∀ a, has_char a s = true → is_special a = false) →
     sanitizeErrorMessage (Some s) = s).
Proof.
  intros Hne. pose proof (sanitize_escape s Hne) as Hesc.
  split; [done|]. intros Hplain. rewrite Hesc. clear Hne Hesc.
  induction s as [|a s IH]; [done|].
  cbn [escape]. rewrite escape_char_plain.
  - change (String a EmptyString +:+ escape s) with (String a (escape s)).
    f_equal. apply IH. intros b Hb. apply Hplain. cbn [has_char].
    by rewrite Hb, orb_true_r.
  - apply Hplain. cbn [has_char]. by rewrite Ascii.eqb_refl.
Qed.

Lemma sanitize_is_one_pass_witness :
  "<b>Tom & 'Jerry'</b>"%string ≠ EmptyString ∧
  sanitizeErrorMessage (Some "<b>Tom & 'Jerry'</b>"%string)
  = "&lt;b&gt;Tom &amp; &#x27;Jerry&#x27;&lt;&#x2F;b&gt;"%string.
Proof.
  split; [done|].
  destruct (sanitize_is_one_pass "<b>Tom & 'Jerry'</b>") as [-> _]; [done|].
  reflexivity.
Defined.

Lemma unescape_head_escape_char a t :
  unescape_head (escape_char a +:+ t) = Some (a, t).
Proof. destruct a as [[] [] [] [] [] [] [] []]; reflexivity. Qed.

Lemma escape_inj s1 s2 : escape s1 = escape s2 → s1 = s2.
Proof.
  revert s2. induction s1 as [|a1 s1 IH]; intros [|a2 s2] Heq.
  - done.
  - apply (f_equal unescape_head) in Heq. cbn [escape] in Heq.
    by rewrite unescape_head_escape_char in Heq.
  - apply (f_equal unescape_head) in Heq. cbn [escape] in Heq.
    by rewrite unescape_head_escape_char in Heq.
  - apply (f_equal unescape_head) in Heq. cbn [escape] in Heq.
    rewrite !unescape_head_escape_char in Heq. injection Heq as -> Heq.
    f_equal. by apply IH.
Qed.

(** X14.  Two different messages, neither of them empty, never sanitize
    to the same text: nothing of a message is lost in the escaping. *)
Theorem sanitize_keeps_messages_apart s1 s2 :
  s1 ≠ EmptyString → s2 ≠ EmptyString → s1 ≠ s2 →
  sanitizeErrorMessage (Some s1) ≠ sanitizeErrorMessage (Some s2).
Proof.
  intros H1 H2 Hne Heq. apply Hne.
  rewrite (sanitize_escape s1 H1), (sanitize_escape s2 H2) in Heq.
  by apply escape_inj.
Qed.

Lemma sanitize_keeps_messages_apart_witness :
  "&lt;"%string ≠ "<"%string
  ∧ sanitizeErrorMessage (Some "&lt;"%string) ≠ sanitizeErrorMessage (Some "<"%string).
Proof.
  split; [done|]. by apply (sanitize_keeps_messages_apart "&lt;" "<").
Defined.

(** ** The path check *)

Lemma string_prefix_app s1 s2 :
  String.prefix s1 s2 = true ↔ ∃ rest, s2 = s1 +:+ rest.
Proof.
  revert s2. induction s1 as [|a s1 IH]; intros s2.
  - destruct s2; (split; [intros _; by eexists|done]).
  - destruct s2 as [|b s2]; cbn [String.prefix].
    + split; [done|]. intros [rest Hrest]. done.
    + destruct (ascii_dec a b) as [->|Hne].
      * rewrite IH. split; intros [rest Hrest]; exists rest.
        -- by rewrite Hrest.
        -- change (String b s2 = String b (s1 +:+ rest)) in Hrest.
           by injection Hrest.
      * split; [done|]. intros [rest Hrest].
        change (String b s2 = String a (s1 +:+ rest)) in Hrest.
        injection Hrest as -> _. done.
Qed.

Lemma string_app_nil_r s : s +:+ EmptyString = s.
Proof.
  induction s as [|a s IH]; [done|].
  change (String a (s +:+ EmptyString) = String a s). by rewrite IH.
Qed.

Lemma string_app_eq_self s x : s +:+ x = s → x = EmptyString.
Proof.
  intros Heq. rewrite <-(string_app_nil_r s) in Heq at 2.
  by apply (inj (String.app s)) in Heq.
Qed.

(** X15.  The path check answers true exactly when the path is given and
    not empty, both real paths exist, and the real path of the file is the
    real path of the directory or continues it with the separator.  A real
    path that only continues the directory's name (as [uploads-old] beside
    [uploads]) is refused. *)
Theorem isPathSafe_accepts_only_inside resolve realpathSync sep filePath allowedDir :
  (isPathSafe resolve realpathSync sep filePath allowedDir = true ↔
   ∃ p resolved allowedPath,
     filePath = Some p ∧ p ≠ EmptyString
     ∧ realpathSync (resolve p) = Some resolved
     ∧ realpathSync (resolve allowedDir) = Some allowedPath
     ∧ (resolved = allowedPath ∨ ∃ rest, resolved = allowedPath +:+ sep +:+ rest))
  ∧ (∀ p allowedPath x,
       filePath = Some p →
       realpathSync (resolve p) = Some (allowedPath +:+ x) →
       realpathSync (resolve allowedDir) = Some allowedPath →
       x ≠ EmptyString → String.prefix sep x = false →
       isPathSafe resolve realpathSync sep filePath allowedDir = false).
Proof.
  assert (isPathSafe resolve realpathSync sep filePath allowedDir = true ↔
   ∃ p resolved allowedPath,
     filePath = Some p ∧ p ≠ EmptyString
     ∧ realpathSync (resolve p) = Some resolved
     ∧ realpathSync (resolve allowedDir) = Some allowedPath
     ∧ (resolved = allowedPath ∨ ∃ rest, resolved = allowedPath +:+ sep +:+ rest))
    as Hiff.
  { unfold isPathSafe. split.
    - destruct filePath as [p|]; [|done].
      destruct (String.eqb_spec p EmptyString) as [|Hne]; [done|].
      destruct (realpathSync (resolve p)) as [resolved|] eqn:Hr; [|done].
      destruct (realpathSync (resolve allowedDir)) as [allowedPath|] eqn:Ha; [|done].
      intros Hok. exists p, resolved, allowedPath. split_and!; [done..|].
      apply orb_prop in Hok as [Heq|Hpre].
      + left. by apply String.eqb_eq.
      + right. apply string_prefix_app in Hpre as [rest ->].
        exists rest. by rewrite string_app_assoc.
    - intros (p & resolved & allowedPath & -> & Hne & -> & -> & Hin).
      destruct (String.eqb_spec p EmptyString) as [|_]; [done|].
      destruct Hin as [->|[rest ->]].
      + by rewrite String.eqb_refl.
      + apply orb_true_intro. right. apply string_prefix_app.
        exists rest. by rewrite string_app_assoc. }
  split; [done|].
  intros p allowedPath x -> Hr Ha Hx Hsep.
  apply not_true_is_false. intros E.
  apply Hiff in E as (p' & resolved & allowedPath' & [= <-] & _ & Hr' & Ha' & Hin).
  rewrite Hr in Hr'. rewrite Ha in Ha'. injection Hr' as <-. injection Ha' as <-.
  destruct Hin as [Heq|[rest Heq]].
  - by apply string_app_eq_self in Heq.
  - apply (inj (String.app allowedPath)) in Heq.
    assert (String.prefix sep x = true) as Hp
      by (apply string_prefix_app; by exists rest).
    by rewrite Hp in Hsep.
Qed.

Lemma isPathSafe_accepts_only_inside_witness :
  isPathSafe plain_resolve plain_realpath "/" (Some "/srv/uploads/a.webp"%string)
    "/srv/uploads" = true
  ∧ isPathSafe plain_resolve plain_realpath "/" (Some "/srv/uploads-old/a.webp"%string)
      "/srv/uploads" = false.
Proof.
  split.
  - apply (isPathSafe_accepts_only_inside plain_resolve plain_realpath "/"
             (Some "/srv/uploads/a.webp"%string) "/srv/uploads").
    exists "/srv/uploads/a.webp"%string, "/srv/uploads/a.webp"%string,
      "/srv/uploads"%string.
    split_and!; [done..|]. right. by exists "a.webp"%string.
  - apply (isPathSafe_accepts_only_inside plain_resolve plain_realpath "/"
             (Some "/srv/uploads-old/a.webp"%string) "/srv/uploads")
      with (p := "/srv/uploads-old/a.webp"%string) (x := "-old/a.webp"%string)
           (allowedPath := "/srv/uploads"%string); done.
Defined.

(** ** The cleanup *)

Lemma clean_one_explained P retries st root path e :
  e ∈ (clean_one P retries st root path).1 →
  event_stage e = st ∧ path = Some (event_path e) ∧ explained P root retries e.
Proof.
  unfold clean_one. destruct path as [p|]; [|by intros ?%elem_of_nil].
  destruct (String.eqb p EmptyString); [by intros ?%elem_of_nil|].
  destruct (isPathSafe _ _ _ _ _) eqn:Hsafe; cbn [negb].
  - destruct (Fs.existsSync P retries st p) eqn:Hex; [|by intros ?%elem_of_nil].
    destruct (Fs.remove P retries st p) eqn:Hrm.
    + intros ->%list_elem_of_singleton. by cbn.
    + destruct (Nat.ltb_spec 0 retries) as [Hpos|Hzero];
        intros ->%list_elem_of_singleton; cbn; split_and!; try done.
      right. split; [done|lia].
    + intros ->%list_elem_of_singleton. cbn. split_and!; try done. by left.
  - intros ->%list_elem_of_singleton. by cbn.
Qed.


Lemma cleanup_pass_explained P uploadRoot inputPath tempDir outputPath m e :
  e ∈ (clean_one P m InputStage uploadRoot inputPath).1
      ++ (clean_one P m TempStage "uploads" tempDir).1
      ++ (clean_one P m OutputStage "outputs" outputPath).1 →
  path_of inputPath tempDir outputPath (event_stage e) = Some (event_path e)
  ∧ explained P (root_of uploadRoot (event_stage e)) m e.
Proof.
  rewrite !elem_of_app.
  intros [Hin|[Hin|Hin]]; apply clean_one_explained in Hin as (-> & <- & Hex);
    by split.
Qed.

Lemma cleanup_log_split P uploadRoot inputPath tempDir outputPath m e :
  e ∈ cleanupWithRetry P uploadRoot inputPath tempDir outputPath m →
  e ∈ (clean_one P m InputStage uploadRoot inputPath).1
      ++ (clean_one P m TempStage "uploads" tempDir).1
      ++ (clean_one P m OutputStage "outputs" outputPath).1
  ∨ ∃ k, m = S k ∧ e ∈ cleanupWithRetry P uploadRoot inputPath tempDir outputPath k.
Proof.
  assert (e ∈ match m with
              | O => []
              | S r => cleanupWithRetry P uploadRoot inputPath tempDir outputPath r
              end →
          ∃ k, m = S k
            ∧ e ∈ cleanupWithRetry P uploadRoot inputPath tempDir outputPath k)
    as Hlater.
  { destruct m as [|k]; [by intros ?%elem_of_nil|]. intros Hin. by exists k. }
  destruct m as [|k]; cbn [cleanupWithRetry].
  all: destruct (clean_one P _ InputStage uploadRoot inputPath) as [e1 a1].
  all: destruct (clean_one P _ TempStage "uploads" tempDir) as [e2 a2].
  all: destruct (clean_one P _ OutputStage "outputs" outputPath) as [e3 a3].
  all: cbn [fst snd]; destruct a1, a2, a3; rewrite !elem_of_app; intros Hin.
  all: destruct_or?; auto.
Qed.

(** X16.  Every line the cleanup logs is explained by the file system as
    it was in some pass: a deletion was tried only on a path that was
    given for that stage, had passed the path check against the stage's
    directory and existed; a retry was scheduled only for a busy path with
    attempts left; a refused path was never touched in that pass. *)
Theorem cleanup_log_is_explained P uploadRoot inputPath tempDir outputPath retries e :
  e ∈ cleanupWithRetry P uploadRoot inputPath tempDir outputPath retries →
  ∃ r, (r ≤ retries)%nat
    ∧ path_of inputPath tempDir outputPath (event_stage e) = Some (event_path e)
    ∧ explained P (root_of uploadRoot (event_stage e)) r e.
Proof.
  induction retries as [|n IH]; intros Hin.
  - apply cleanup_log_split in Hin as [Hin|(k & ? & _)]; [|done].
    exists 0%nat. split; [done|]. by apply cleanup_pass_explained.
  - apply cleanup_log_split in Hin as [Hin|(k & [= <-] & Hin)].
    + exists (S n). split; [done|]. by apply cleanup_pass_explained.
    + destruct (IH Hin) as (r & Hr & Hrest). exists r. split; [lia|done].
Qed.

Lemma cleanup_log_is_explained_witness :
  ∃ r, (r ≤ 3)%nat
    ∧ path_of (Some "/srv/uploads/a.webp"%string) (Some "uploads/tmp_1"%string)
        (Some "/etc/passwd"%string) TempStage = Some "uploads/tmp_1"%string
    ∧ explained busy_once "uploads" r (Retrying TempStage "uploads/tmp_1" 3).
Proof.
  apply (cleanup_log_is_explained busy_once "/srv/uploads"
           (Some "/srv/uploads/a.webp"%string) (Some "uploads/tmp_1"%string)
           (Some "/etc/passwd"%string) 3 (Retrying TempStage "uploads/tmp_1" 3)).
  vm_compute. apply list_elem_of_further, list_elem_of_here.
Defined.


